(** * tweet_sentiment_to_csv: a shallow embedding and its properties

    The development follows [tweet_sentiment_to_csv.py] stage by stage:
    the command line ([parser]), the regular-expression test used by
    [filter], the Collector ([start_api], [get_data], [scraper]), the
    Filter+Scorer ([filter], [sentiment_saver]) and the Writer
    ([write_to_csv]).

    Conventions.
    - A Python [str] is a [string]; its characters are the code points
      0..255, classified as Python's [re] classifies them.
    - A profile field is [str] or [None]: [value := option string].
    - A raised exception is the [Raise] case of [result]; [try]/[except]
      is a [match] on it.
    - [print] appends a line to an explicit log.
    - The services the script only calls (the Twitter client, TextBlob)
      are the fields of a [world] record. *)

From Stdlib Require Import Ascii String List ZArith Bool Lia.
From stdpp Require Import base decidable countable gmap strings list.
Import ListNotations.

Local Open Scope string_scope.
Local Open Scope list_scope.

(** ** Exceptions *)

Inductive exn : Type :=
  | TypeError
  | AttributeError
  | IndexError
  | ValueError
  | OSError
  | KeyError
  | TweepError
  | CsvError
  | SystemExit (code : Z).

Inductive result (A : Type) : Type :=
  | Ok (a : A)
  | Raise (e : exn).
Arguments Ok {A} a.
Arguments Raise {A} e.

#[global] Instance result_ret : MRet result := fun _ a => Ok a.

#[global] Instance result_bind : MBind result := fun _ _ k r =>
  match r with
  | Ok a => k a
  | Raise e => Raise e
  end.

(** A [str] or [None]. *)
Abbreviation value := (option string).

(** ** Characters, as the [re] module sees them *)

Module Char.

Definition code (c : ascii) : N := N_of_ascii c.

Definition between (lo hi : N) (c : ascii) : bool :=
  ((lo <=? code c) && (code c <=? hi))%N.

(** [str.isalnum] on the code points below 256. *)
Definition isalnum (c : ascii) : bool :=
  between 48 57 c || between 65 90 c || between 97 122 c
  || between 170 170 c || between 178 179 c || between 181 181 c
  || between 185 186 c || between 188 190 c || between 192 214 c
  || between 216 246 c || between 248 255 c.

(** The class [\w]: alphanumeric or the underscore. *)
Definition is_word (c : ascii) : bool :=
  isalnum c || (code c =? 95)%N.

(** Simple lower-casing, the folding used under [re.I]. *)
Definition lower (c : ascii) : ascii :=
  if between 65 90 c || between 192 214 c || between 216 222 c
  then ascii_of_N (code c + 32)
  else c.

End Char.

(** ** The pattern [r'\b' + f + r'\b'] under [re.I] *)

Module Re.

(** The two opcodes such a pattern compiles to. *)
Inductive op : Type :=
  | AT_BOUNDARY
  | LITERAL_IGNORE (c : ascii).

Definition pattern : Type := list op.

(** Characters that stand for themselves in a pattern: the terms of
    [filter_terms] are made of these only. *)
Definition plain (c : ascii) : bool :=
  Char.between 48 57 c || Char.between 65 90 c || Char.between 97 122 c
  || (Char.code c =? 32)%N.

Definition literal (f : string) : bool :=
  forallb plain (list_ascii_of_string f).

(** [re.compile(r'\b' + f + r'\b', re.I)] for a literal [f]: the
    pattern's characters are stored lower-cased. *)
Definition compile_word (f : string) : pattern :=
  AT_BOUNDARY
    :: map (fun c => LITERAL_IGNORE (Char.lower c)) (list_ascii_of_string f)
    ++ [AT_BOUNDARY].

(** A position in the subject: the character before it, if any, and
    the characters from it on. *)
Definition word_before (prev : option ascii) : bool :=
  match prev with
  | Some c => Char.is_word c
  | None => false
  end.

Definition word_here (rest : list ascii) : bool :=
  match rest with
  | c :: _ => Char.is_word c
  | [] => false
  end.

Definition at_boundary (prev : option ascii) (rest : list ascii) : bool :=
  xorb (word_before prev) (word_here rest).

(** Does [p] match starting at this position? *)
Fixpoint match_at (p : pattern) (prev : option ascii) (rest : list ascii)
  : bool :=
  match p with
  | [] => true
  | AT_BOUNDARY :: p' => at_boundary prev rest && match_at p' prev rest
  | LITERAL_IGNORE c :: p' =>
      match rest with
      | [] => false
      | x :: rest' =>
          (Char.code (Char.lower x) =? Char.code c)%N
          && match_at p' (Some x) rest'
      end
  end.

(** [re.search]: the first position, from the left, where [p] matches. *)
Fixpoint search_from (p : pattern) (prev : option ascii) (rest : list ascii)
  : bool :=
  match_at p prev rest
  || match rest with
     | [] => false
     | x :: rest' => search_from p (Some x) rest'
     end.

(** [re.search(r'\b' + f + r'\b', s, re.I)] as a truth value, on a
    subject that is a [str]. *)
Definition search_word (f : string) (s : string) : bool :=
  search_from (compile_word f) None (list_ascii_of_string s).

(** The same call on a field that may be [None]: [re.search] raises
    [TypeError] when the subject is not a string. *)
Definition search (f : string) (v : value) : result bool :=
  match v with
  | Some s => Ok (search_word f s)
  | None => Raise TypeError
  end.

(** *** Vocabulary for stating what a search finds *)

(** The character before the position reached after reading [mid]. *)
Definition prev_after (prev : option ascii) (mid : list ascii) : option ascii :=
  match rev mid with
  | c :: _ => Some c
  | [] => prev
  end.

Definition literals (f : list ascii) : pattern :=
  map (fun c => LITERAL_IGNORE (Char.lower c)) f.

(** A term that starts and ends with a word character. *)
Definition wordy (f : list ascii) : bool :=
  word_here f && word_before (prev_after None f).

(** An occurrence of [f] in [s] as a whole word, up to case. *)
Definition whole_word_in (f s : list ascii) : Prop :=
  exists pre mid post,
    s = pre ++ mid ++ post
    /\ map Char.lower mid = map Char.lower f
    /\ word_before (prev_after None pre) = false
    /\ word_here post = false.

End Re.

(** The compiled-in configuration. *)
Definition my_queries : list string :=
  [ "southern accent -filter:retweets";
    "new york accent -filter:retweets";
    "californian accent -filter:retweets" ].

Definition metadata_fields : list string :=
  [ "created_at"; "name"; "screen_name"; "location"; "description" ].

Definition filter_terms : list string :=
  [ "dc"; "DMV"; "georgetown"; "gtown"; "GU"; "37th and O"; "202" ].


(** ** Python's insertion-ordered [dict] *)

Module Dict.

Definition t (V : Type) : Type := list (string * V).

(** [d[k] = v]: an existing key keeps its place and takes the new
    value, a new key goes to the end. *)
Fixpoint set {V : Type} (k : string) (v : V) (d : t V) : t V :=
  match d with
  | [] => [(k, v)]
  | (k', v') :: d' =>
      if String.eqb k k' then (k, v) :: d' else (k', v') :: set k v d'
  end.

(** [d.update(items)] *)
Definition update {V : Type} (d : t V) (items : list (string * V)) : t V :=
  fold_left (fun acc kv => set (fst kv) (snd kv) acc) items d.

(** [dict(items)] *)
Definition of_items {V : Type} (items : list (string * V)) : t V :=
  update [] items.

(** [d.get(k)], with [None] for a missing key as a Rocq [None]. *)
Fixpoint get {V : Type} (k : string) (d : t V) : option V :=
  match d with
  | [] => None
  | (k', v) :: d' => if String.eqb k k' then Some v else get k d'
  end.

Definition keys {V : Type} (d : t V) : list string := map fst d.

Definition values {V : Type} (d : t V) : list V := map snd d.

End Dict.

(** ** [int(s)] on a string *)

Module PyInt.







End PyInt.

(** ** The command line *)

Module Cli.

(** What [parse_args] returns: the attributes [n] and [f]. *)
Record Namespace : Type := { n : Z; f : string }.



Definition one_of (flags : list string) (s : string) : bool :=
  existsb (String.eqb s) flags.






End Cli.

(** ** The [csv] module: a writer with [lineterminator='\n'] and the
       default reader, both in the [excel] dialect *)

Module Csv.

Definition delimiter : ascii := ascii_of_N 44.
Definition quotechar : ascii := ascii_of_N 34.
Definition LF : ascii := ascii_of_N 10.
Definition CR : ascii := ascii_of_N 13.

(** *** Writing *)

(** [QUOTE_MINIMAL]: a field is quoted when it holds the delimiter,
    the quote character or a character of the line terminator, here
    the line feed.  A carriage return is none of these (the writers of
    CPython 3.12 and earlier leave it unquoted). *)
Definition special (c : ascii) : bool :=
  Ascii.eqb c delimiter || Ascii.eqb c quotechar || Ascii.eqb c LF.

(** [doublequote=True] *)
Fixpoint escape (l : list ascii) : list ascii :=
  match l with
  | [] => []
  | c :: l' =>
      if Ascii.eqb c quotechar then quotechar :: quotechar :: escape l'
      else c :: escape l'
  end.

Definition join_append (field : list ascii) : list ascii :=
  if existsb special field then quotechar :: escape field ++ [quotechar]
  else field.

Fixpoint join (fields : list (list ascii)) : list ascii :=
  match fields with
  | [] => []
  | [x] => join_append x
  | x :: rest => join_append x ++ delimiter :: join rest
  end.

(** [writer.writerow]: a row made of one empty field is written as a
    pair of quotes. *)
Definition writerow (fields : list (list ascii)) : list ascii :=
  match fields with
  | [[]] => [quotechar; quotechar; LF]
  | _ => join fields ++ [LF]
  end.

(** *** Reading *)

Inductive parser_state : Type :=
  | START_RECORD
  | START_FIELD
  | IN_FIELD
  | IN_QUOTED_FIELD
  | QUOTE_IN_QUOTED_FIELD
  | EAT_CRNL.

Record reader : Type := {
  state : parser_state;
  fields : list (list ascii);
  field : list ascii
}.

Definition parse_reset : reader :=
  {| state := START_RECORD; fields := []; field := [] |}.

Definition parse_save_field (r : reader) (next : parser_state) : reader :=
  {| state := next; fields := fields r ++ [field r]; field := [] |}.

(** [csv.field_size_limit()], as the module starts.  A field that
    already holds that many characters takes no more: the reader
    raises. *)
Definition field_size_limit : N := 131072.

Definition parse_add_char (limit : N) (r : reader) (c : ascii)
    (next : parser_state) : result reader :=
  if (limit <=? N.of_nat (length (field r)))%N then Raise CsvError
  else Ok {| state := next; fields := fields r; field := field r ++ [c] |}.

Definition goto (r : reader) (next : parser_state) : reader :=
  {| state := next; fields := fields r; field := field r |}.

Definition newline (c : ascii) : bool := Ascii.eqb c LF || Ascii.eqb c CR.

(** One step of the reader on a character, or on the end of the line
    ([None]). *)
Definition parse_process_char (limit : N) (r : reader) (c : option ascii)
  : result reader :=
  match state r, c with
  | START_RECORD, None => Ok r
  | (START_RECORD | START_FIELD), Some x =>
      if newline x then
        match state r with
        | START_RECORD => Ok (goto r EAT_CRNL)
        | _ => Ok (parse_save_field r EAT_CRNL)
        end
      else if Ascii.eqb x quotechar then Ok (goto r IN_QUOTED_FIELD)
      else if Ascii.eqb x delimiter then Ok (parse_save_field r START_FIELD)
      else parse_add_char limit r x IN_FIELD
  | START_FIELD, None => Ok (parse_save_field r START_RECORD)
  | IN_FIELD, None => Ok (parse_save_field r START_RECORD)
  | IN_FIELD, Some x =>
      if newline x then Ok (parse_save_field r EAT_CRNL)
      else if Ascii.eqb x delimiter then Ok (parse_save_field r START_FIELD)
      else parse_add_char limit r x IN_FIELD
  | IN_QUOTED_FIELD, None => Ok r
  | IN_QUOTED_FIELD, Some x =>
      if Ascii.eqb x quotechar then Ok (goto r QUOTE_IN_QUOTED_FIELD)
      else parse_add_char limit r x IN_QUOTED_FIELD
  | QUOTE_IN_QUOTED_FIELD, None => Ok (parse_save_field r START_RECORD)
  | QUOTE_IN_QUOTED_FIELD, Some x =>
      if Ascii.eqb x quotechar then parse_add_char limit r x IN_QUOTED_FIELD
      else if Ascii.eqb x delimiter then Ok (parse_save_field r START_FIELD)
      else if newline x then Ok (parse_save_field r EAT_CRNL)
      else parse_add_char limit r x IN_FIELD
  | EAT_CRNL, None => Ok (goto r START_RECORD)
  | EAT_CRNL, Some x => if newline x then Ok r else Raise CsvError
  end.

Fixpoint parse_chars (limit : N) (r : reader) (l : list ascii)
  : result reader :=
  match l with
  | [] => Ok r
  | c :: l' =>
      r' ← parse_process_char limit r (Some c); parse_chars limit r' l'
  end.

(** [next(csv.reader([line]))] under a field size limit: the
    characters of [line], then the end of the line; when the input ends
    inside a quoted field the pending field closes the record. *)
Definition read_record_with (limit : N) (line : list ascii)
  : result (list (list ascii)) :=
  r ← parse_chars limit parse_reset line;
  r ← parse_process_char limit r None;
  match state r with
  | START_RECORD => Ok (fields r)
  | _ => Ok (fields r ++ [field r])
  end.

(** The reader as the module starts. *)
Definition read_record (line : list ascii) : result (list (list ascii)) :=
  read_record_with field_size_limit line.

(** *** Vocabulary for reading back *)

(** A character the writer leaves unquoted and that is no carriage
    return extends the field. *)
Definition ordinary (c : ascii) : bool :=
  negb (special c) && negb (Ascii.eqb c CR).

(** The states in which a field is over when the delimiter or the end
    of the line comes. *)
Definition closing (st : parser_state) : bool :=
  match st with
  | START_FIELD | IN_FIELD | QUOTE_IN_QUOTED_FIELD => true
  | _ => false
  end.

(** The fields before some field of the row, each with its delimiter. *)
Definition delimited (pre : list (list ascii)) : list ascii :=
  concat (map (fun x => join_append x ++ [delimiter]) pre).

(** What follows a field of the row. *)
Definition after_field (post : list (list ascii)) : list ascii :=
  match post with
  | [] => [LF]
  | _ => delimiter :: join post ++ [LF]
  end.

End Csv.

(** ** Programs with output and files *)

(** What a run can change: the lines printed and the files written. *)
Record state : Type := {
  stdout : list string;
  files : gmap string string
}.

Definition io (A : Type) : Type := state -> state * result A.

#[global] Instance io_ret : MRet io := fun _ a st => (st, Ok a).

#[global] Instance io_bind : MBind io := fun _ _ k m st =>
  match m st with
  | (st', Ok a) => k a st'
  | (st', Raise e) => (st', Raise e)
  end.

Definition print (line : string) : io unit := fun st =>
  ({| stdout := stdout st ++ [line]; files := files st |}, Ok tt).

(** A computation that only returns or raises. *)
Definition call {A : Type} (r : result A) : io A := fun st => (st, r).

(** [try: body except E: handler], where [caught] tells the exceptions
    of class [E]. *)
Definition try_except {A : Type} (body : io A) (caught : exn -> bool)
    (handler : io A) : io A := fun st =>
  match body st with
  | (st', Raise e) => if caught e then handler st' else (st', Raise e)
  | ok => ok
  end.

Definition is_TweepError (e : exn) : bool :=
  match e with
  | TweepError => true
  | _ => false
  end.

(** ** The data that flows through the pipeline *)

(** [status._json], as far as the script reads it: the [user] object
    (a key bound to [null] is left out of the map, [get] returns [None]
    either way) and [full_text]. *)
Record status : Type := {
  user : option (gmap string string);
  full_text : value
}.

(** A tweet tuple: the items of the dictionary [get_data] builds. *)
Abbreviation tweet := (list (string * value)).

(** A value of a scored dictionary. *)
Inductive cell (float : Type) : Type :=
  | Field (v : value)
  | Score (x : float).
Arguments Field {float} v.
Arguments Score {float} x.

(** The handle [API(auth, wait_on_rate_limit=True,
    wait_on_rate_limit_notify=True)]. *)
Record API : Type := {
  wait_on_rate_limit : bool;
  wait_on_rate_limit_notify : bool
}.

(** The services behind the script. *)
Record world (float : Type) : Type := {
  (** [auth.get_authorization_url()] *)
  get_authorization_url : result string;
  (** [Cursor(api.search, rpp=100, tweet_mode='extended', q=search)
      .items(limit)], read to its end *)
  items : API -> string -> Z -> result (list status);
  (** [TextBlob(text).sentiment]: polarity and subjectivity *)
  sentiment : value -> result (float * float);
  (** [str] of a float *)
  float_str : float -> string;
  (** [open(path, 'w', encoding='utf-8')], which may raise [OSError] *)
  open_for_writing : string -> result unit
}.
Arguments get_authorization_url {float} w.
Arguments items {float} w api search limit.
Arguments sentiment {float} w text.
Arguments float_str {float} w x.
Arguments open_for_writing {float} w path.

(** ** The script *)

Section Script.

Context {float : Type}.
Variable w : world float.
Variable parser : Cli.Namespace.

Definition start_api : io API :=
  try_except
    (_ ← call (get_authorization_url w);
     print "You're in! API connected.")
    is_TweepError
    (print "You're not in! API did not connect.");;
  mret {| wait_on_rate_limit := true; wait_on_rate_limit_notify := true |}.

(** [get_data]: [status.get('user')] may be [None], on which [.get]
    raises [AttributeError]. *)
Definition get_data (st : status) : result tweet :=
  match user st with
  | None => Raise AttributeError
  | Some u =>
      let data :=
        fold_left (fun d fld => Dict.set fld (u !! fld) d)
                  metadata_fields [] in
      let data := Dict.update data [("text", full_text st)] in
      Ok data
  end.

(** [list(map(get_data, ...))] *)
Fixpoint map_get_data (results : list status) : result (list tweet) :=
  match results with
  | [] => Ok []
  | st :: rest =>
      t ← get_data st;
      ts ← map_get_data rest;
      Ok (t :: ts)
  end.

(** [for t in temp_list: all_tweets.add(tuple(t))] *)
Definition add_all (all_tweets : gset tweet) (temp_list : list tweet)
  : gset tweet :=
  fold_left (fun acc t => acc ∪ {[ t ]}) temp_list all_tweets.

(** The loop [for search in queries] of [scraper]. *)
Fixpoint scraper_loop (api : API) (queries : list string)
    (all_tweets : gset tweet) : result (gset tweet) :=
  match queries with
  | [] => Ok all_tweets
  | search :: rest =>
      results ← items w api search (Cli.n parser);
      temp_list ← map_get_data results;
      scraper_loop api rest (add_all all_tweets temp_list)
  end.

Definition scraper (queries : list string) : io (gset tweet) :=
  api ← start_api;
  call (scraper_loop api queries ∅).

(** [tweet[i][1]] *)
Definition subscript (t : tweet) (i : nat) : result value :=
  match t !! i with
  | Some kv => Ok (snd kv)
  | None => Raise IndexError
  end.

(** [any(re.search(r'\b' + f + r'\b', tweet[i][1], re.I)
         for f in terms)]: the terms are tried in order and the first
    match ends the scan. *)
Fixpoint any_search (terms : list string) (t : tweet) (i : nat)
  : result bool :=
  match terms with
  | [] => Ok false
  | f :: rest =>
      v ← subscript t i;
      found ← Re.search f v;
      if (found : bool) then Ok true else any_search rest t i
  end.

(** The condition of the [if] in [filter]: [or] evaluates its right
    operand only when the left one is false. *)
Definition condition (t : tweet) : result bool :=
  in_location ← any_search filter_terms t 3;
  if (in_location : bool) then Ok true
  else any_search filter_terms t 4.

Definition sentiment_saver (individual_tweet : value)
  : result (Dict.t (cell float)) :=
  s ← sentiment w individual_tweet;
  Ok [ ("polarity", Score (fst s)); ("subjectivity", Score (snd s)) ].

(** [current_tweet['text']] *)
Definition getitem (d : Dict.t value) (k : string) : result value :=
  match Dict.get k d with
  | Some v => Ok v
  | None => Raise KeyError
  end.

Definition as_cells (d : Dict.t value) : Dict.t (cell float) :=
  map (fun kv => (fst kv, Field (snd kv))) d.

(** The three lines under the [if]: the dictionary of the tweet,
    extended with its scores. *)
Definition score (t : tweet) : result (Dict.t (cell float)) :=
  let current_tweet := Dict.of_items t in
  text ← getitem current_tweet "text";
  scores ← sentiment_saver text;
  Ok (Dict.update (as_cells current_tweet) scores).

Fixpoint filter_loop (tweet_tup : list tweet)
    (saved_tweets : list (Dict.t (cell float)))
  : result (list (Dict.t (cell float))) :=
  match tweet_tup with
  | [] => Ok saved_tweets
  | t :: rest =>
      keep ← condition t;
      if (keep : bool) then
        current_tweet ← score t;
        filter_loop rest (saved_tweets ++ [current_tweet])
      else filter_loop rest saved_tweets
  end.

(** [filter], on the tweets in the order the set yields them. *)
Definition filter (tweet_tup : list tweet)
  : result (list (Dict.t (cell float))) :=
  filter_loop tweet_tup [].

(** *** The Writer *)

Definition fieldnames : list string :=
  metadata_fields ++ [ "text"; "polarity"; "subjectivity" ].

(** What the writer puts in the file for a value: [None] is the
    empty string, a float its [str]. *)
Definition cell_text (c : cell float) : list ascii :=
  match c with
  | Field None => []
  | Field (Some s) => list_ascii_of_string s
  | Score x => list_ascii_of_string (float_str w x)
  end.

(** [DictWriter._dict_to_list]: a key outside [fieldnames] raises
    [ValueError]; a field name the row lacks is written as [restval],
    the empty string. *)
Definition dict_to_list (rowdict : Dict.t (cell float))
  : result (list (list ascii)) :=
  if forallb (fun k => Cli.one_of fieldnames k) (Dict.keys rowdict)
  then Ok (map (fun k => match Dict.get k rowdict with
                         | Some c => cell_text c
                         | None => []
                         end) fieldnames)
  else Raise ValueError.

Definition writeheader (csvfile : list ascii) : list ascii :=
  csvfile ++ Csv.writerow (map list_ascii_of_string fieldnames).

(** [writer.writerows]: the rows are converted and written one after
    the other; what was written before a failure stays written. *)
Fixpoint writerows (rowdicts : list (Dict.t (cell float)))
    (csvfile : list ascii) : list ascii * result unit :=
  match rowdicts with
  | [] => (csvfile, Ok tt)
  | row :: rest =>
      match dict_to_list row with
      | Ok flds => writerows rest (csvfile ++ Csv.writerow flds)
      | Raise e => (csvfile, Raise e)
      end
  end.

(** Leaving the [with] block stores the text written so far. *)
Definition close (path : string) (csvfile : list ascii) : io unit :=
  fun st =>
    ({| stdout := stdout st;
        files := <[ path := string_of_list_ascii csvfile ]> (files st) |},
     Ok tt).

Definition write_to_csv (final_tweets : list (Dict.t (cell float)))
  : io unit :=
  call (open_for_writing w (Cli.f parser));;
  let written := writerows final_tweets (writeheader []) in
  match snd written with
  | Ok _ =>
      print ("All done! Your tweets have been saved to " ++ Cli.f parser);;
      close (Cli.f parser) (fst written)
  | Raise e =>
      close (Cli.f parser) (fst written);;
      call (Raise e)
  end.

Definition main : io unit :=
  tweets ← scraper my_queries;
  filtered_tweets ← call (filter (elements tweets));
  write_to_csv filtered_tweets.

End Script.

(** ** The stream listener *)

Module MyStreamListener.

Definition on_data (status : string) : bool := true.

(** [on_error]: the status code 420 prints a message and returns
    [False]; on any other code the method falls off its end and
    returns [None]. *)
Definition on_error (status_code : Z) : io (option bool) :=
  if (status_code =? 420)%Z then
    print "wee woo wee woo, it didn't work! Disconnecting...";;
    mret (Some false)
  else mret None.

End MyStreamListener.

(** ** Vocabulary of the statements *)

Definition chars (s : string) : list ascii := list_ascii_of_string s.

(** An ExtractedRecord: the six keys, in their order. *)
Definition well_formed (t : tweet) : Prop :=
  Dict.keys t = metadata_fields ++ [ "text" ].

(** The values [tweet[3][1]] and [tweet[4][1]]. *)
Definition field_at (t : tweet) (i : nat) : value :=
  match t !! i with
  | Some kv => snd kv
  | None => None
  end.

Definition location (t : tweet) : value := field_at t 3.
Definition description (t : tweet) : value := field_at t 4.

(** Some filter term matches inside the field. *)
Definition term_matches (v : value) : Prop :=
  exists f s, In f filter_terms /\ v = Some s /\ Re.search_word f s = true.

Definition term_matchesb (v : value) : bool :=
  match v with
  | Some s => existsb (fun f => Re.search_word f s) filter_terms
  | None => false
  end.

(** The record a scored dictionary extends: its entries other than the
    scores. *)
Definition record_of {float : Type} (row : Dict.t (cell float)) : tweet :=
  omap (fun kv => match snd kv with
                  | Field v => Some (fst kv, v)
                  | Score _ => None
                  end) row.

(** The six keys of an ExtractedRecord and the header of the file. *)
Definition record_keys : list string :=
  [ "created_at"; "name"; "screen_name"; "location"; "description"; "text" ].

Definition header_row : list ascii :=
  chars "created_at,name,screen_name,location,description,text,polarity,subjectivity"
  ++ [ Csv.LF ].

(** The line the writer produces for a scored dictionary whose keys
    are the field names: its values, in their order. *)
Definition data_row {float : Type} (w : world float)
    (row : Dict.t (cell float)) : list ascii :=
  Csv.writerow (map (cell_text w) (Dict.values row)).

Definition the_api : API :=
  {| wait_on_rate_limit := true; wait_on_rate_limit_notify := true |}.

Definition said (st : state) (line : string) : state :=
  {| stdout := stdout st ++ [ line ]; files := files st |}.

(** Writing an ExtractedRecord alone, and reading the line back with
    the default reader. *)
Definition value_text (v : value) : list ascii :=
  match v with
  | Some s => chars s
  | None => []
  end.

Definition write_record (t : tweet) : list ascii :=
  Csv.writerow (map value_text (Dict.values t)).

Definition read_values_with (limit : N) (line : list ascii)
  : result (list value) :=
  flds ← Csv.read_record_with limit line;
  Ok (map (fun fld => Some (string_of_list_ascii fld)) flds).

Definition read_values (line : list ascii) : result (list value) :=
  read_values_with Csv.field_size_limit line.

Definition no_CR (fld : list ascii) : bool :=
  forallb (fun c => negb (Ascii.eqb c Csv.CR)) fld.

(** A field the reader gives back as it was written: it is either
    quoted by the writer or free of carriage returns, and it is no
    longer than the field size limit. *)
Definition readable (limit : N) (fld : list ascii) : bool :=
  (existsb Csv.special fld || no_CR fld)
  && (N.of_nat (length fld) <=? limit)%N.

(** Every value of the record is readable by the reader as the module
    starts. *)
Definition readable_record (t : tweet) : Prop :=
  Forall (fun v => readable Csv.field_size_limit (value_text v) = true)
         (Dict.values t).

(** No value of the record holds a carriage return. *)
Definition no_carriage_return (t : tweet) : Prop :=
  Forall (fun v => no_CR (value_text v) = true) (Dict.values t).

(** What a value reads back as: a string as itself, [None] as the
    empty string. *)
Definition read_back (v : value) : value :=
  match v with
  | Some s => Some s
  | None => Some ""
  end.

(** The record [get_data] makes of a profile and a text. *)
Definition extracted (u : gmap string string) (text : value) : tweet :=
  [ ("created_at", u !! "created_at");
    ("name", u !! "name");
    ("screen_name", u !! "screen_name");
    ("location", u !! "location");
    ("description", u !! "description");
    ("text", text) ].

(** The condition of [filter] on a record whose two fields are
    strings. *)
Definition kept (t : tweet) : bool :=
  term_matchesb (location t) || term_matchesb (description t).

(** A world that differs from [w] in the outcome of the authentication
    call only. *)
Definition with_authentication {float : Type} (w : world float)
    (outcome : result string) : world float :=
  {| get_authorization_url := outcome;
     items := items w;
     sentiment := sentiment w;
     float_str := float_str w;
     open_for_writing := open_for_writing w |}.

(** The authentication call returns, or raises what [start_api]
    catches. *)
Definition handled (outcome : result string) : Prop :=
  forall e, outcome = Raise e -> e = TweepError.

(** A query whose search and extraction both return. *)
Definition answered {float : Type} (w : world float)
    (parser : Cli.Namespace) (api : API) (search : string) : Prop :=
  exists results temp_list,
    items w api search (Cli.n parser) = Ok results
    /\ map_get_data results = Ok temp_list.

(** The line [start_api] prints for an outcome it handles. *)
Definition message_for (url : result string) : string :=
  match url with
  | Ok _ => "You're in! API connected."
  | Raise _ => "You're not in! API did not connect."
  end.

(** ** A small world for worked examples

    The two records of the end-to-end scenario, a variant without a
    description, and services that answer at once: scores are integers
    here, printed as a fixed text. *)

Module Sample.

Definition record (loc desc : value) (text : string) : tweet :=
  [ ("created_at", Some "Wed Jan 02 12:00:00 +0000 2019");
    ("name", Some "Ann");
    ("screen_name", Some "ann");
    ("location", loc);
    ("description", desc);
    ("text", Some text) ].

Definition dc : tweet :=
  record (Some "Washington DC") (Some "") "y'all are great".

Definition seattle : tweet :=
  record (Some "Seattle") (Some "just a gal") "hello".

Definition dc_no_description : tweet :=
  record (Some "Washington DC") None "y'all are great".

Definition seattle_no_description : tweet :=
  record (Some "Seattle") None "hello".

Definition profile (loc desc : string) : gmap string string :=
  <[ "created_at" := "Wed Jan 02 12:00:00 +0000 2019" ]>
    (<[ "name" := "Ann" ]>
       (<[ "screen_name" := "ann" ]>
          (<[ "location" := loc ]> (<[ "description" := desc ]> ∅)))).

Definition status_dc : status :=
  {| user := Some (profile "Washington DC" "");
     full_text := Some "y'all are great" |}.

Definition status_seattle : status :=
  {| user := Some (profile "Seattle" "just a gal");
     full_text := Some "hello" |}.

(** Authentication fails; the first query returns one status twice and
    the other once, the second query returns the latter again, the
    third nothing; a text scores [(1, 2)] and [None] is refused. *)
Definition services : world Z :=
  {| get_authorization_url := Raise TweepError;
     items := fun _ search _ =>
       if String.eqb search "southern accent -filter:retweets"
       then Ok [ status_dc; status_seattle; status_dc ]
       else if String.eqb search "new york accent -filter:retweets"
       then Ok [ status_seattle ]
       else Ok [];
     sentiment := fun text =>
       match text with
       | Some _ => Ok (1%Z, 2%Z)
       | None => Raise TypeError
       end;
     float_str := fun _ => "0.5";
     open_for_writing := fun _ => Ok tt |}.

Definition scored (t : tweet) : Dict.t (cell Z) :=
  as_cells t ++ [ ("polarity", Score 1%Z); ("subjectivity", Score 2%Z) ].

Definition args : Cli.Namespace :=
  {| Cli.n := 1000; Cli.f := "your_tweets.csv" |}.

Definition fresh : state := {| stdout := []; files := ∅ |}.

(** A text of two lines separated by a lone carriage return. *)
Definition two_lines : string :=
  String "a" (String Csv.CR (String "b" EmptyString)).

Definition dc_two_lines : tweet :=
  [ ("created_at", Some "Wed Jan 02 12:00:00 +0000 2019");
    ("name", Some "Ann");
    ("screen_name", Some "ann");
    ("location", Some "Washington DC");
    ("description", Some "");
    ("text", Some two_lines) ].

(** A text in which the carriage return comes with a comma. *)
Definition two_lines_and_a_comma : string :=
  String "a" (String "," (String Csv.CR (String "b" EmptyString))).

Definition dc_two_lines_and_a_comma : tweet :=
  record (Some "Washington DC") (Some "") two_lines_and_a_comma.

Definition api : API :=
  {| wait_on_rate_limit := true; wait_on_rate_limit_notify := true |}.

Definition status_no_user : status :=
  {| user := None; full_text := Some "hello" |}.

Definition dc_no_text : tweet :=
  [ ("created_at", Some "Wed Jan 02 12:00:00 +0000 2019");
    ("name", Some "Ann");
    ("screen_name", Some "ann");
    ("location", Some "Washington DC");
    ("description", Some "");
    ("text", None) ].

(** Services that differ from [services] on one text only, which they
    refuse. *)
Definition picky : world Z :=
  {| get_authorization_url := Raise TweepError;
     items := fun _ _ _ => Ok [];
     sentiment := fun text =>
       match text with
       | Some s => if String.eqb s "hello" then Raise ValueError
                   else Ok (1%Z, 2%Z)
       | None => Raise TypeError
       end;
     float_str := fun _ => "0.5";
     open_for_writing := fun _ => Ok tt |}.

(** Services whose authentication call is interrupted, and services
    whose first search finds the Seattle status alone. *)
Definition interrupted : world Z :=
  {| get_authorization_url := Raise (SystemExit 1);
     items := fun _ _ _ => Ok [];
     sentiment := fun _ => Raise TypeError;
     float_str := fun _ => "0.0";
     open_for_writing := fun _ => Ok tt |}.

Definition only_seattle : world Z :=
  {| get_authorization_url := Ok "https://api.twitter.com/oauth/authorize";
     items := fun _ search _ =>
       if String.eqb search "southern accent -filter:retweets"
       then Ok [ status_seattle ]
       else Ok [];
     sentiment := fun _ => Raise TypeError;
     float_str := fun _ => "0.0";
     open_for_writing := fun _ => Ok tt |}.


(** Services that authenticate and whose first search finds the DC
    status alone. *)
Definition only_dc : world Z :=
  {| get_authorization_url := Ok "https://api.twitter.com/oauth/authorize";
     items := fun _ search _ =>
       if String.eqb search "southern accent -filter:retweets"
       then Ok [ status_dc ]
       else Ok [];
     sentiment := sentiment services;
     float_str := float_str services;
     open_for_writing := fun _ => Ok tt |}.

(** Services whose second search returns a status without a user, and
    services whose second search fails. *)
Definition broken_status : world Z :=
  {| get_authorization_url := Raise TweepError;
     items := fun _ search _ =>
       if String.eqb search "new york accent -filter:retweets"
       then Ok [ status_no_user ]
       else Ok [];
     sentiment := fun _ => Raise TypeError;
     float_str := fun _ => "0.0";
     open_for_writing := fun _ => Ok tt |}.

Definition broken_search : world Z :=
  {| get_authorization_url := Raise TweepError;
     items := fun _ search _ =>
       if String.eqb search "new york accent -filter:retweets"
       then Raise TweepError
       else Ok [];
     sentiment := fun _ => Raise TypeError;
     float_str := fun _ => "0.0";
     open_for_writing := fun _ => Ok tt |}.

(** The set the three queries leave: two records. *)
Definition collected : gset tweet := {[ dc ]} ∪ {[ seattle ]}.

End Sample.

(** * Properties *)

(** ** Characters *)

Lemma code_inj (a b : ascii) : Char.code a = Char.code b -> a = b.
Proof.
  unfold Char.code. intros H.
  rewrite <- (ascii_N_embedding a), <- (ascii_N_embedding b). now rewrite H.
Qed.

Lemma code_eqb_eq (a b : ascii) : (Char.code a =? Char.code b)%N = true <-> a = b.
Proof.
  rewrite N.eqb_eq. split; [apply code_inj | now intros ->].
Qed.

Ltac each_char c :=
  destruct c as [[] [] [] [] [] [] [] []]; vm_compute; reflexivity.

Lemma is_word_lower (c : ascii) : Char.is_word (Char.lower c) = Char.is_word c.
Proof. each_char c. Qed.

(** ** The word pattern *)

Module ReFacts.
Import Re.

Lemma prev_after_nil prev : prev_after prev [] = prev.
Proof. reflexivity. Qed.

Lemma prev_after_cons prev c l :
  prev_after prev (c :: l) = prev_after (Some c) l.
Proof.
  unfold prev_after. simpl.
  destruct (rev l) as [|x r] eqn:E; simpl; reflexivity.
Qed.

(** A run of literals matches exactly the prefixes that spell it, up
    to case. *)
Lemma match_literals (f : list ascii) (q : pattern) :
  forall prev rest,
    match_at (literals f ++ q) prev rest = true <->
    exists mid post,
      rest = mid ++ post /\ map Char.lower mid = map Char.lower f
      /\ match_at q (prev_after prev mid) post = true.
Proof.
  induction f as [|c f IH]; intros prev rest; simpl.
  - split.
    + intros H. exists [], rest. auto.
    + intros (mid & post & -> & Hm & H).
      destruct mid; [exact H | discriminate].
  - destruct rest as [|x rest].
    + split; [discriminate|].
      intros (mid & post & E & Hm & _).
      destruct mid; [discriminate | discriminate].
    + rewrite andb_true_iff, code_eqb_eq, IH. split.
      * intros (Hx & mid & post & -> & Hm & H).
        exists (x :: mid), post. simpl. rewrite Hx, Hm, prev_after_cons. auto.
      * intros (mid & post & E & Hm & H).
        destruct mid as [|y mid]; [discriminate|].
        simpl in E, Hm. injection E as -> ->. injection Hm as Hy Hm.
        rewrite prev_after_cons in H. split; [exact Hy|]. eauto.
Qed.

(** [search_from] finds a match at some position at or after the
    current one. *)
Lemma search_from_spec (p : pattern) :
  forall rest prev,
    search_from p prev rest = true <->
    exists pre tail,
      rest = pre ++ tail /\ match_at p (prev_after prev pre) tail = true.
Proof.
  induction rest as [|x rest IH]; intros prev; simpl.
  - rewrite orb_false_r. split.
    + intros H. exists [], []. auto.
    + intros (pre & tail & E & H).
      symmetry in E. apply app_eq_nil in E as [-> ->]. exact H.
  - rewrite orb_true_iff, IH. split.
    + intros [H | (pre & tail & -> & H)].
      * exists [], (x :: rest). auto.
      * exists (x :: pre), tail. rewrite prev_after_cons. auto.
    + intros (pre & tail & E & H). destruct pre as [|y pre].
      * left. simpl in E. subst tail. exact H.
      * right. simpl in E. injection E as -> ->.
        rewrite prev_after_cons in H. eauto.
Qed.

Lemma word_here_lower (a b : list ascii) :
  map Char.lower a = map Char.lower b -> word_here a = word_here b.
Proof.
  destruct a as [|x a], b as [|y b]; simpl; try discriminate; auto.
  intros H. injection H as H _.
  rewrite <- (is_word_lower x), <- (is_word_lower y). now rewrite H.
Qed.

Lemma word_before_lower (a b : list ascii) prev :
  map Char.lower a = map Char.lower b ->
  a <> [] ->
  word_before (prev_after prev a) = word_before (prev_after None b).
Proof.
  intros H Ha. unfold prev_after.
  assert (Hr : map Char.lower (rev a) = map Char.lower (rev b))
    by (rewrite !map_rev; now rewrite H).
  destruct (rev a) as [|x ra] eqn:Ea.
  - apply (f_equal (@rev ascii)) in Ea. rewrite rev_involutive in Ea.
    contradiction.
  - destruct (rev b) as [|y rb]; [discriminate|]. simpl in *.
    injection Hr as Hx _.
    rewrite <- (is_word_lower x), <- (is_word_lower y). now rewrite Hx.
Qed.

Lemma word_here_app (mid post : list ascii) :
  mid <> [] -> word_here (mid ++ post) = word_here mid.
Proof. destruct mid; [contradiction | reflexivity]. Qed.

(** The search for a wordy term succeeds exactly on the subjects
    that hold it as a whole word. *)
Lemma search_whole_word (f s : list ascii) :
  wordy f = true ->
  search_from (AT_BOUNDARY :: literals f ++ [AT_BOUNDARY]) None s = true
  <-> whole_word_in f s.
Proof.
  intros Hw. unfold wordy in Hw. apply andb_true_iff in Hw as [Hh Hb].
  assert (Hf : f <> []) by (destruct f; [discriminate | discriminate]).
  rewrite search_from_spec. unfold whole_word_in. split.
  - intros (pre & tail & -> & H). simpl in H.
    apply andb_true_iff in H as [H1 H2].
    apply match_literals in H2 as (mid & post & -> & Hm & H3).
    simpl in H3. rewrite andb_true_r in H3.
    assert (Hmid : mid <> []).
    { intros ->. destruct f; [contradiction | discriminate]. }
    exists pre, mid, post. split; [reflexivity|]. split; [exact Hm|].
    unfold at_boundary in H1, H3.
    rewrite (word_here_app _ _ Hmid), (word_here_lower _ _ Hm), Hh in H1.
    rewrite (word_before_lower _ _ _ Hm Hmid), Hb in H3.
    split.
    + destruct (word_before (prev_after None pre)); [discriminate | reflexivity].
    + destruct (word_here post); [discriminate | reflexivity].
  - intros (pre & mid & post & -> & Hm & Hp & Hq).
    assert (Hmid : mid <> []).
    { intros ->. destruct f; [contradiction | discriminate]. }
    exists pre, (mid ++ post). split; [reflexivity|]. simpl.
    apply andb_true_iff. split.
    + unfold at_boundary.
      rewrite (word_here_app _ _ Hmid), (word_here_lower _ _ Hm), Hh, Hp.
      reflexivity.
    + apply match_literals. exists mid, post.
      split; [reflexivity|]. split; [exact Hm|]. simpl.
      rewrite andb_true_r. unfold at_boundary.
      rewrite (word_before_lower _ _ _ Hm Hmid), Hb, Hq. reflexivity.
Qed.

(** Matching looks at the subject only through its lower-cased
    characters and their word class. *)
Lemma match_at_nocase (p : pattern) :
  forall prev prev' rest rest',
    word_before prev = word_before prev' ->
    map Char.lower rest = map Char.lower rest' ->
    match_at p prev rest = match_at p prev' rest'.
Proof.
  induction p as [|o p IH]; intros prev prev' rest rest' Hp Hr; [reflexivity|].
  destruct o as [|c]; simpl.
  - unfold at_boundary. rewrite Hp, (word_here_lower _ _ Hr).
    f_equal. now apply IH.
  - destruct rest as [|x rest], rest' as [|y rest']; try discriminate; auto.
    simpl in Hr. injection Hr as Hx Hr. rewrite Hx. f_equal.
    apply IH; [|exact Hr]. simpl.
    rewrite <- (is_word_lower x), <- (is_word_lower y). now rewrite Hx.
Qed.

Lemma search_from_nocase (p : pattern) :
  forall rest rest' prev prev',
    word_before prev = word_before prev' ->
    map Char.lower rest = map Char.lower rest' ->
    search_from p prev rest = search_from p prev' rest'.
Proof.
  induction rest as [|x rest IH]; intros rest' prev prev' Hp Hr;
    destruct rest' as [|y rest']; try discriminate; simpl.
  - f_equal. now apply match_at_nocase.
  - f_equal; [now apply match_at_nocase|].
    simpl in Hr. injection Hr as Hx Hr. apply IH; [|exact Hr]. simpl.
    rewrite <- (is_word_lower x), <- (is_word_lower y). now rewrite Hx.
Qed.

End ReFacts.

(** ** Exceptions *)

Lemma bind_ok {A B : Type} (r : result A) (k : A -> result B) (b : B) :
  r ≫= k = Ok b -> exists a, r = Ok a /\ k a = Ok b.
Proof. destruct r as [a|e]; [eauto | discriminate]. Qed.

(** ** Dictionaries *)

Module DictFacts.

Lemma set_fresh {V : Type} (k : string) (v : V) (d : Dict.t V) :
  ~ In k (Dict.keys d) -> Dict.set k v d = d ++ [(k, v)].
Proof.
  induction d as [|[k' v'] d IH]; simpl; intros H; [reflexivity|].
  destruct (String.eqb_spec k k') as [->|Hne].
  - exfalso. apply H. now left.
  - rewrite IH; [reflexivity|]. intros Hin. apply H. now right.
Qed.

Lemma update_fresh {V : Type} (items d : Dict.t V) :
  List.NoDup (Dict.keys items) ->
  (forall k, In k (Dict.keys items) -> ~ In k (Dict.keys d)) ->
  Dict.update d items = d ++ items.
Proof.
  unfold Dict.update. revert d.
  induction items as [|[k v] items IH]; intros d Hnd Hfresh; simpl.
  - now rewrite app_nil_r.
  - apply List.NoDup_cons_iff in Hnd as [Hk Hnd].
    rewrite set_fresh by (apply Hfresh; now left).
    rewrite IH; [now rewrite <- app_assoc | exact Hnd |].
    intros k' Hk' Hin. unfold Dict.keys in Hin.
    rewrite map_app in Hin. apply in_app_or in Hin as [Hin | [<- | []]].
    + apply (Hfresh k'); [now right | exact Hin].
    + apply Hk. exact Hk'.
Qed.

Lemma of_items_nodup {V : Type} (items : Dict.t V) :
  List.NoDup (Dict.keys items) -> Dict.of_items items = items.
Proof.
  intros H. unfold Dict.of_items. rewrite update_fresh; auto.
Qed.

End DictFacts.

(** ** The Filter+Scorer *)

Section FilterFacts.

Context {float : Type}.
Variable w : world float.

Lemma well_formed_nodup (t : tweet) : well_formed t -> List.NoDup (Dict.keys t).
Proof.
  unfold well_formed. intros ->.
  repeat (apply List.NoDup_cons; [vm_compute; intuition discriminate|]).
  apply List.NoDup_nil.
Qed.

Lemma record_of_as_cells (t : tweet) :
  record_of (as_cells (float := float) t) = t.
Proof.
  unfold record_of, as_cells. induction t as [|[k v] t IH]; [reflexivity|].
  simpl. cbn. f_equal. exact IH.
Qed.

Lemma record_of_app (a b : Dict.t (cell float)) :
  record_of (a ++ b) = record_of a ++ record_of b.
Proof. unfold record_of. apply omap_app. Qed.

Lemma keys_as_cells (t : tweet) :
  Dict.keys (as_cells (float := float) t) = Dict.keys t.
Proof.
  unfold Dict.keys, as_cells. rewrite map_map. reflexivity.
Qed.

(** What [score] returns on a well-formed record. *)
Lemma score_well_formed (t : tweet) (row : Dict.t (cell float)) :
  well_formed t ->
  score w t = Ok row ->
  exists p s,
    row = as_cells t ++ [ ("polarity", Score p); ("subjectivity", Score s) ].
Proof.
  intros Hwf H. unfold score in H.
  rewrite (DictFacts.of_items_nodup t (well_formed_nodup t Hwf)) in H.
  apply bind_ok in H as (text & _ & H).
  apply bind_ok in H as (scores & Hs & H).
  unfold sentiment_saver in Hs. apply bind_ok in Hs as ([p s] & _ & Hs).
  injection Hs as <-. injection H as <-. exists p, s.
  apply (DictFacts.update_fresh
           [ ("polarity", Score p); ("subjectivity", Score s) ] (as_cells t)).
  - repeat (apply List.NoDup_cons; [vm_compute; intuition discriminate|]).
    apply List.NoDup_nil.
  - rewrite keys_as_cells, Hwf. intros k Hk.
    vm_compute in Hk. vm_compute.
    intuition (subst; discriminate).
Qed.

Lemma record_of_score (t : tweet) (row : Dict.t (cell float)) :
  well_formed t -> score w t = Ok row -> record_of row = t.
Proof.
  intros Hwf H. destruct (score_well_formed t row Hwf H) as (p & s & ->).
  rewrite record_of_app, record_of_as_cells. cbn. apply app_nil_r.
Qed.

Lemma keys_score (t : tweet) (row : Dict.t (cell float)) :
  well_formed t -> score w t = Ok row -> Dict.keys row = fieldnames.
Proof.
  intros Hwf H. destruct (score_well_formed t row Hwf H) as (p & s & ->).
  unfold Dict.keys. rewrite map_app. fold (Dict.keys (as_cells (float:=float) t)).
  rewrite keys_as_cells, Hwf. reflexivity.
Qed.

(** A scan that returns has looked at a string, and says whether some
    term matches it. *)
Lemma any_search_ok (terms : list string) (t : tweet) (i : nat) (b : bool) :
  any_search terms t i = Ok b ->
  b = match field_at t i with
      | Some s => existsb (fun f => Re.search_word f s) terms
      | None => false
      end
  /\ (terms <> [] -> exists s, field_at t i = Some s).
Proof.
  unfold field_at.
  induction terms as [|f terms IH]; simpl; intros H.
  - injection H as <-. split; [now destruct (_ !! _) as [[? []]|] | congruence].
  - apply bind_ok in H as (v & Hv & H). unfold subscript in Hv.
    destruct (_ !! _) as [[k v']|]; [|discriminate]. injection Hv as ->.
    apply bind_ok in H as (found & Hf & H).
    destruct v as [s|]; [|discriminate]. injection Hf as <-. simpl.
    split; [|eauto].
    destruct (Re.search_word f s); [now injection H as <- |].
    simpl. apply IH in H as [H _]. exact H.
Qed.

(** A scan over a string field always returns. *)
Lemma any_search_string (terms : list string) (t : tweet) (i : nat) (s : string) :
  (exists k, t !! i = Some (k, Some s)) ->
  any_search terms t i = Ok (existsb (fun f => Re.search_word f s) terms).
Proof.
  intros [k Hk]. induction terms as [|f terms IH]; [reflexivity|].
  cbn [any_search existsb]. unfold subscript. rewrite Hk. cbn.
  destruct (Re.search_word f s); [reflexivity | exact IH].
Qed.

(** A scan over a [None] field raises at the first term. *)
Lemma any_search_none (terms : list string) (t : tweet) (i : nat) :
  terms <> [] ->
  (exists k, t !! i = Some (k, None)) ->
  any_search terms t i = Raise TypeError.
Proof.
  intros Hne [k Hk]. destruct terms as [|f terms]; [contradiction|].
  cbn [any_search]. unfold subscript. rewrite Hk. reflexivity.
Qed.

Lemma term_matchesb_spec (v : value) :
  term_matchesb v = true <-> term_matches v.
Proof.
  unfold term_matchesb, term_matches. destruct v as [s|].
  - rewrite existsb_exists. split.
    + intros (f & Hf & H). exists f, s. auto.
    + intros (f & s' & Hf & E & H). injection E as <-. eauto.
  - split; [discriminate|]. intros (f & s & _ & E & _). discriminate.
Qed.

Lemma condition_ok (t : tweet) (b : bool) :
  condition t = Ok b ->
  b = term_matchesb (location t) || term_matchesb (description t).
Proof.
  unfold condition. intros H.
  apply bind_ok in H as (b3 & E3 & H).
  apply any_search_ok in E3 as [E3 _].
  fold (location t) in E3. fold (term_matchesb (location t)) in E3.
  rewrite <- E3. destruct b3.
  - now injection H as <-.
  - apply any_search_ok in H as [H _]. exact H.
Qed.

(** The rows [filter] returns extend, in order, the records that
    satisfy its condition. *)
Lemma filter_loop_ok (tweet_tup : list tweet) :
  forall saved out,
    Forall well_formed tweet_tup ->
    filter_loop w tweet_tup saved = Ok out ->
    exists rows,
      out = saved ++ rows
      /\ map record_of rows
         = List.filter
             (fun t => term_matchesb (location t) || term_matchesb (description t))
             tweet_tup.
Proof.
  induction tweet_tup as [|t rest IH]; intros saved out Hwf H.
  - injection H as <-. exists []. now rewrite app_nil_r.
  - apply Forall_cons_iff in Hwf as [Ht Hrest].
    cbn [filter_loop] in H. apply bind_ok in H as (keep & Ec & H).
    apply condition_ok in Ec. cbn [List.filter]. rewrite <- Ec. destruct keep.
    + apply bind_ok in H as (row & Es & H).
      apply IH in H as (rows & -> & Hrows); [|exact Hrest].
      exists (row :: rows). rewrite <- app_assoc. split; [reflexivity|].
      cbn [map]. rewrite (record_of_score t row Ht Es). now f_equal.
    + apply IH in H as (rows & -> & Hrows); [|exact Hrest]. eauto.
Qed.

End FilterFacts.

Section FilterClaims.

Context {float : Type}.
Variable w : world float.

(** The saved rows only ever grow at the end. *)
Lemma filter_loop_acc (tweet_tup : list tweet) :
  forall saved,
    filter_loop w tweet_tup saved
    = rows ← filter_loop w tweet_tup []; Ok (saved ++ rows).
Proof.
  induction tweet_tup as [|t rest IH]; intros saved.
  - cbn. now rewrite app_nil_r.
  - cbn [filter_loop]. destruct (condition t) as [[|]|e]; cbn; [| apply IH | reflexivity].
    destruct (score w t) as [row|e]; cbn; [|reflexivity].
    rewrite (IH (saved ++ [row])), (IH [row]).
    destruct (filter_loop w rest []) as [rows|e]; cbn; [|reflexivity].
    now rewrite <- app_assoc.
Qed.

Lemma filter_cons_keep (t : tweet) (rest : list tweet) (row : Dict.t (cell float)) :
  condition t = Ok true ->
  score w t = Ok row ->
  filter w (t :: rest) = rows ← filter w rest; Ok (row :: rows).
Proof.
  intros Hc Hs. unfold filter. cbn [filter_loop]. rewrite Hc. cbn.
  rewrite Hs. cbn. apply filter_loop_acc.
Qed.

Lemma filter_app (a b : list tweet) :
  filter w (a ++ b)
  = rows1 ← filter w a; rows2 ← filter w b; Ok (rows1 ++ rows2).
Proof.
  unfold filter. induction a as [|t a IH]; cbn [app filter_loop].
  - cbn. now destruct (filter_loop w b []).
  - destruct (condition t) as [[|]|e]; cbn; [| exact IH | reflexivity].
    destruct (score w t) as [row|e]; cbn; [|reflexivity].
    rewrite (filter_loop_acc (a ++ b) [row]), (filter_loop_acc a [row]), IH.
    destruct (filter_loop w a []) as [rows1|e]; cbn; [|reflexivity].
    destruct (filter_loop w b []) as [rows2|e]; cbn; reflexivity.
Qed.

Lemma filter_cons_raise (t : tweet) (rest : list tweet) (e : exn) :
  condition t = Raise e -> filter w (t :: rest) = Raise e.
Proof.
  intros Hc. unfold filter. cbn [filter_loop]. now rewrite Hc.
Qed.

(** A record on which the condition raises makes [filter] raise,
    wherever it stands in the input. *)
Lemma filter_raises_at (t : tweet) (e : exn) (tweet_tup : list tweet) :
  condition t = Raise e ->
  In t tweet_tup ->
  exists e', filter w tweet_tup = Raise e'.
Proof.
  intros Hc Hin. apply in_split in Hin as (a & b & ->).
  rewrite filter_app, (filter_cons_raise t b e Hc).
  destruct (filter w a) as [rows1|e1]; [exists e | exists e1]; reflexivity.
Qed.

Lemma filter_cons_skip (t : tweet) (rest : list tweet) :
  condition t = Ok false -> filter w (t :: rest) = filter w rest.
Proof.
  intros Hc. unfold filter. cbn [filter_loop]. now rewrite Hc.
Qed.

Lemma field_at_string (t : tweet) (i : nat) (s : string) :
  field_at t i = Some s -> exists k, t !! i = Some (k, Some s).
Proof.
  unfold field_at. destruct (t !! i) as [[k v]|]; [|discriminate].
  cbn [snd]. intros ->. eauto.
Qed.

(** On a record whose location and description are strings the
    condition of [filter] returns. *)
Lemma condition_returns (t : tweet) :
  is_Some (location t) ->
  is_Some (description t) ->
  condition t
  = Ok (term_matchesb (location t) || term_matchesb (description t)).
Proof.
  intros [loc Hl] [desc Hd]. unfold condition.
  rewrite (any_search_string filter_terms t 3 loc)
    by (apply field_at_string; exact Hl).
  cbn [mbind result_bind]. rewrite Hl, Hd. cbn [term_matchesb].
  destruct (existsb (fun f => Re.search_word f loc) filter_terms);
    [reflexivity|].
  cbn [orb]. apply any_search_string, field_at_string. exact Hd.
Qed.

(** [filter] returns when the two fields of every record are strings
    and the scorer accepts every text. *)
Lemma filter_returns (tweet_tup : list tweet) :
  Forall (fun t => is_Some (location t) /\ is_Some (description t)
                   /\ exists row, score w t = Ok row) tweet_tup ->
  exists out, filter w tweet_tup = Ok out.
Proof.
  induction tweet_tup as [|t rest IH]; intros H.
  - exists []. reflexivity.
  - apply Forall_cons_iff in H as [(Hl & Hd & row & Hs) Hrest].
    destruct (IH Hrest) as (out & Hout).
    pose proof (condition_returns t Hl Hd) as Hc.
    destruct (term_matchesb (location t) || term_matchesb (description t)).
    + exists (row :: out). rewrite (filter_cons_keep t rest row Hc Hs), Hout.
      reflexivity.
    + exists out. now rewrite (filter_cons_skip t rest Hc).
Qed.

(** C1: on the records the Collector produces, [filter] returns when
    the location and the description of every record are strings and
    the scorer accepts every text; and whenever it returns, a record of
    its input appears in the output if and only if some filter term
    matches inside its "location" field or some filter term matches
    inside its "description" field.  The two tests are independent: the
    matching terms may differ, and a record with no match in either
    field is left out. *)
Theorem filter_keeps_location_or_description (tweet_tup : list tweet) :
  Forall well_formed tweet_tup ->
  (Forall (fun t => is_Some (location t) /\ is_Some (description t)
                    /\ exists row, score w t = Ok row) tweet_tup ->
   exists out, filter w tweet_tup = Ok out)
  /\ (forall out t,
        filter w tweet_tup = Ok out ->
        In t tweet_tup ->
        In t (map record_of out)
        <-> term_matches (location t) \/ term_matches (description t)).
Proof.
  intros Hwf. split; [apply filter_returns|].
  intros out t H Hin. unfold filter in H.
  apply (filter_loop_ok w) in H as (rows & -> & Hrows); [|exact Hwf].
  cbn [app]. rewrite Hrows, filter_In, orb_true_iff, !term_matchesb_spec.
  tauto.
Qed.

(** C10: the two tests short-circuit from left to right.  When the
    "location" entry of a record is a string that some filter term
    matches, the condition of [filter] is true whatever the
    "description" entry is, [None] included: the description is never
    searched, so no [TypeError] can come from it, and the record is
    scored and kept. *)
Theorem location_match_skips_description
    (t : tweet) (k loc : string) (row : Dict.t (cell float))
    (before after : list tweet) (out1 out2 : list (Dict.t (cell float))) :
  t !! 3 = Some (k, Some loc) ->
  term_matches (Some loc) ->
  score w t = Ok row ->
  filter w before = Ok out1 ->
  filter w after = Ok out2 ->
  condition t = Ok true
  /\ filter w (before ++ t :: after) = Ok (out1 ++ row :: out2).
Proof.
  intros H3 Hm Hs H1 H2.
  assert (Hc : condition t = Ok true).
  { unfold condition.
    rewrite (any_search_string filter_terms t 3 loc) by eauto.
    apply term_matchesb_spec in Hm. unfold term_matchesb in Hm.
    rewrite Hm. reflexivity. }
  split; [exact Hc|].
  rewrite filter_app, H1. cbn [mbind result_bind].
  rewrite (filter_cons_keep t after row Hc Hs), H2. reflexivity.
Qed.

(** C6, as the code has it: [re.search] on [None] raises [TypeError];
    the condition of [filter] raises it when the "location" entry is
    [None], and when the "location" entry is a string no term matches
    and the "description" entry is [None].  [filter] does not catch it:
    on any input that holds such a record it raises, it does not pass
    the record over as a non-match. *)
Theorem none_field_aborts_filter (t : tweet) (tweet_tup : list tweet) :
  (exists k, t !! 3 = Some (k, None))
  \/ (exists k loc k', t !! 3 = Some (k, Some loc)
                       /\ term_matchesb (Some loc) = false
                       /\ t !! 4 = Some (k', None)) ->
  In t tweet_tup ->
  (forall f, Re.search f None = Raise TypeError)
  /\ condition t = Raise TypeError
  /\ exists e, filter w tweet_tup = Raise e.
Proof.
  intros H Hin.
  assert (Hc : condition t = Raise TypeError).
  { unfold condition. destruct H as [H | (k & loc & k' & H3 & Hm & H4)].
    - rewrite (any_search_none filter_terms t 3);
        [reflexivity | discriminate | exact H].
    - rewrite (any_search_string filter_terms t 3 loc) by eauto.
      unfold term_matchesb in Hm. rewrite Hm. cbn [mbind result_bind].
      apply any_search_none; [discriminate | eauto]. }
  split; [reflexivity|]. split; [exact Hc|].
  exact (filter_raises_at t TypeError tweet_tup Hc Hin).
Qed.

End FilterClaims.

Lemma filter_keeps_location_or_description_witness :
  Forall well_formed [ Sample.dc; Sample.seattle ]
  /\ filter Sample.services [ Sample.dc; Sample.seattle ]
     = Ok [ Sample.scored Sample.dc ]
  /\ (In Sample.dc (map record_of [ Sample.scored Sample.dc ])
      <-> term_matches (location Sample.dc)
          \/ term_matches (description Sample.dc))
  /\ (In Sample.seattle (map record_of [ Sample.scored Sample.dc ])
      <-> term_matches (location Sample.seattle)
          \/ term_matches (description Sample.seattle)).
Proof.
  assert (Hwf : Forall well_formed [ Sample.dc; Sample.seattle ])
    by (repeat constructor).
  destruct (filter_keeps_location_or_description Sample.services
              [ Sample.dc; Sample.seattle ] Hwf) as [_ H].
  split; [exact Hwf|]. split; [reflexivity|]. split.
  - apply H; [reflexivity | now left].
  - apply H; [reflexivity | right; now left].
Defined.

Lemma location_match_skips_description_witness :
  description Sample.dc_no_description = None
  /\ condition Sample.dc_no_description = Ok true
  /\ filter Sample.services
       ([ Sample.seattle ] ++ Sample.dc_no_description :: [ Sample.dc ])
     = Ok ([] ++ Sample.scored Sample.dc_no_description
              :: [ Sample.scored Sample.dc ]).
Proof.
  split; [reflexivity|].
  apply (location_match_skips_description Sample.services
           Sample.dc_no_description "location" "Washington DC"
           (Sample.scored Sample.dc_no_description)
           [ Sample.seattle ] [ Sample.dc ] [] [ Sample.scored Sample.dc ]).
  - reflexivity.
  - exists "dc", "Washington DC". split; [now left|]. split; reflexivity.
  - reflexivity.
  - reflexivity.
  - reflexivity.
Defined.

Lemma none_field_aborts_filter_witness :
  description Sample.seattle_no_description = None
  /\ (forall f, Re.search f None = Raise TypeError)
  /\ condition Sample.seattle_no_description = Raise TypeError
  /\ exists e,
       filter Sample.services [ Sample.dc; Sample.seattle_no_description ]
       = Raise e.
Proof.
  split; [reflexivity|].
  apply (none_field_aborts_filter Sample.services
           Sample.seattle_no_description
           [ Sample.dc; Sample.seattle_no_description ]).
  - right. exists "location", "Seattle", "description".
    split; [reflexivity|]. split; reflexivity.
  - right. now left.
Defined.

(** C6, as stated, fails: this record has [None] as its description,
    yet [filter] returns and keeps it, because a term matches its
    location. *)
Lemma none_description_kept :
  description Sample.dc_no_description = None
  /\ filter Sample.services [ Sample.dc_no_description ]
     = Ok [ Sample.scored Sample.dc_no_description ]
  /\ In Sample.dc_no_description
        (map record_of [ Sample.scored Sample.dc_no_description ]).
Proof.
  split; [reflexivity|]. split; [reflexivity|]. now left.
Qed.

(** ** Term matching *)

Lemma filter_terms_wordy (f : string) :
  In f filter_terms -> Re.wordy (chars f) = true.
Proof.
  intros H. repeat (destruct H as [<- | H]; [reflexivity|]). destruct H.
Qed.

Lemma filter_terms_literal : forallb Re.literal filter_terms = true.
Proof. reflexivity. Qed.

(** C2: matching a filter term is case-insensitive and whole-word.
    For every term [f] of [filter_terms] and every field [s], the
    search succeeds exactly when [s] holds the letters of [f], in any
    case, with no word character right before or right after them; its
    outcome is unchanged when the case of letters of [s] changes.  So
    "dc" matches "I live in DC" but not "dcmetro", and "GU" matches
    "GU student" but not "argue". *)
Theorem term_matching_nocase_whole_word (f s s' : string) :
  In f filter_terms ->
  (Re.search_word f s = true <-> Re.whole_word_in (chars f) (chars s))
  /\ (map Char.lower (chars s) = map Char.lower (chars s') ->
      Re.search_word f s = Re.search_word f s')
  /\ Re.search_word "dc" "I live in DC" = true
  /\ Re.search_word "dc" "dcmetro" = false
  /\ Re.search_word "GU" "GU student" = true
  /\ Re.search_word "GU" "argue" = false.
Proof.
  intros Hf. split; [|split].
  - apply (ReFacts.search_whole_word (chars f) (chars s)).
    now apply filter_terms_wordy.
  - intros Hs. unfold Re.search_word.
    now apply ReFacts.search_from_nocase.
  - repeat split; reflexivity.
Qed.

Lemma term_matching_nocase_whole_word_witness :
  In "dc" filter_terms
  /\ (Re.search_word "dc" "I live in DC" = true
      <-> Re.whole_word_in (chars "dc") (chars "I live in DC"))
  /\ (map Char.lower (chars "I live in DC")
      = map Char.lower (chars "i LIVE in dc") ->
      Re.search_word "dc" "I live in DC" = Re.search_word "dc" "i LIVE in dc")
  /\ Re.search_word "dc" "I live in DC" = true
  /\ Re.search_word "dc" "dcmetro" = false
  /\ Re.search_word "GU" "GU student" = true
  /\ Re.search_word "GU" "argue" = false.
Proof.
  split; [now left|].
  apply (term_matching_nocase_whole_word "dc" "I live in DC" "i LIVE in dc").
  now left.
Defined.

(** ** The Collector *)

Section CollectorFacts.

Context {float : Type}.
Variable w : world float.
Variable parser : Cli.Namespace.

Lemma get_data_keys (st : status) (t : tweet) :
  get_data st = Ok t -> well_formed t.
Proof.
  unfold get_data, well_formed. destruct (user st) as [u|]; [|discriminate].
  intros H. injection H as <-. reflexivity.
Qed.

Lemma map_get_data_In (results : list status) :
  forall ts t,
    map_get_data results = Ok ts ->
    In t ts -> exists st, In st results /\ get_data st = Ok t.
Proof.
  induction results as [|st results IH]; intros ts t H Hin.
  - injection H as <-. destruct Hin.
  - cbn [map_get_data] in H. apply bind_ok in H as (t0 & Ht0 & H).
    apply bind_ok in H as (ts0 & Hts0 & H). injection H as <-.
    destruct Hin as [<- | Hin].
    + exists st. split; [now left | exact Ht0].
    + destruct (IH ts0 t Hts0 Hin) as (st' & Hst' & Hg).
      exists st'. split; [now right | exact Hg].
Qed.

(** Adding to the set is union with the added records. *)
Lemma add_all_elem (temp_list : list tweet) :
  forall (all_tweets : gset tweet) (t : tweet),
    t ∈ add_all all_tweets temp_list <-> t ∈ all_tweets \/ In t temp_list.
Proof.
  unfold add_all.
  induction temp_list as [|x l IH]; intros S t; cbn [fold_left].
  - split; [now left | now intros [H | []]].
  - rewrite IH, elem_of_union, elem_of_singleton. cbn [In].
    split; [intros [[H | ->] | H] | intros [H | [-> | H]]]; auto.
Qed.

(** The set [scraper] returns is the union, over the queries, of the
    records extracted from their results. *)
Lemma scraper_loop_elem (api : API) (queries : list string) :
  forall (all_tweets S : gset tweet),
    scraper_loop w parser api queries all_tweets = Ok S ->
    forall t,
      t ∈ S <->
      t ∈ all_tweets
      \/ exists search results temp_list,
           In search queries
           /\ items w api search (Cli.n parser) = Ok results
           /\ map_get_data results = Ok temp_list
           /\ In t temp_list.
Proof.
  induction queries as [|q queries IH]; intros S0 S H t.
  - injection H as <-. split; [now left|].
    intros [H | (q & _ & _ & [] & _)]. exact H.
  - cbn [scraper_loop] in H. apply bind_ok in H as (results & Hr & H).
    apply bind_ok in H as (temp_list & Ht & H).
    rewrite (IH _ _ H t), add_all_elem. split.
    + intros [[H0 | H0] | (q' & r' & l' & Hq & Hi & Hm & Hin)].
      * now left.
      * right. exists q, results, temp_list. cbn [In]. auto.
      * right. exists q', r', l'. cbn [In]. auto.
    + intros [H0 | (q' & r' & l' & [<- | Hq] & Hi & Hm & Hin)].
      * left. now left.
      * rewrite Hr in Hi. injection Hi as <-.
        rewrite Ht in Hm. injection Hm as <-. left. now right.
      * right. exists q', r', l'. auto.
Qed.

Lemma scraper_loop_well_formed (api : API) (queries : list string)
    (S : gset tweet) (t : tweet) :
  scraper_loop w parser api queries ∅ = Ok S -> t ∈ S -> well_formed t.
Proof.
  intros H Ht. apply (scraper_loop_elem api queries ∅ S H) in Ht.
  destruct Ht as [Ht | (q & results & l & _ & _ & Hm & Hin)].
  - now apply not_elem_of_empty in Ht.
  - destruct (map_get_data_In results l t Hm Hin) as (st & _ & Hg).
    exact (get_data_keys st t Hg).
Qed.

(** C3: deduplication is by equality of the whole tuple.  Adding the
    same record twice to the working set leaves one member; adding two
    records that differ, in whatever field, leaves two.  The set
    [scraper] returns is the union over all queries of the records
    extracted from their results, and it lists each record once: a
    record found by two queries is one member. *)
Theorem dedup_is_structural
    (api : API) (queries : list string) (S : gset tweet) (r1 r2 t : tweet) :
  scraper_loop w parser api queries ∅ = Ok S ->
  size (add_all ∅ [ r1; r1 ]) = 1
  /\ (r1 <> r2 -> size (add_all ∅ [ r1; r2 ]) = 2)
  /\ (t ∈ S <->
      exists search results temp_list,
        In search queries
        /\ items w api search (Cli.n parser) = Ok results
        /\ map_get_data results = Ok temp_list
        /\ In t temp_list)
  /\ List.NoDup (elements S).
Proof.
  intros H. split; [|split; [|split]].
  - unfold add_all. cbn [fold_left].
    rewrite (left_id_L ∅ (∪)), (idemp_L (∪)). apply size_singleton.
  - intros Hne. unfold add_all. cbn [fold_left].
    rewrite (left_id_L ∅ (∪)), size_union, !size_singleton; [reflexivity|].
    apply disjoint_singleton_l, not_elem_of_singleton. exact Hne.
  - rewrite (scraper_loop_elem api queries ∅ S H t). split.
    + intros [H0 | H0]; [now apply not_elem_of_empty in H0 | exact H0].
    + intros H0. now right.
  - apply NoDup_ListNoDup, NoDup_elements.
Qed.

(** The loop returns exactly when every query is answered. *)
Lemma scraper_loop_returns (api : API) (queries : list string) :
  forall S0,
    (exists S, scraper_loop w parser api queries S0 = Ok S)
    <-> Forall (answered w parser api) queries.
Proof.
  unfold answered.
  induction queries as [|q queries IH]; intros S0.
  - split; [constructor | intros _; now exists S0].
  - cbn [scraper_loop]. rewrite Forall_cons_iff. split.
    + intros (S & H).
      apply bind_ok in H as (results & Hr & H).
      apply bind_ok in H as (temp_list & Ht & H).
      split; [eauto|]. apply (IH (add_all S0 temp_list)). eauto.
    + intros [(results & temp_list & Hr & Ht) H].
      rewrite Hr. cbn [mbind result_bind]. rewrite Ht.
      cbn [mbind result_bind]. now apply IH.
Qed.

End CollectorFacts.

(** The run of the three queries in the sample world, step by step. *)
Lemma sample_first_query :
  map_get_data [ Sample.status_dc; Sample.status_seattle; Sample.status_dc ]
  = Ok [ Sample.dc; Sample.seattle; Sample.dc ].
Proof. vm_compute. reflexivity. Qed.

Lemma sample_second_query :
  map_get_data [ Sample.status_seattle ] = Ok [ Sample.seattle ].
Proof. vm_compute. reflexivity. Qed.

Lemma sample_union (a b : tweet) :
  (∅ ∪ {[ a ]} ∪ {[ b ]} ∪ {[ a ]} ∪ {[ b ]} : gset tweet) = {[ a ]} ∪ {[ b ]}.
Proof.
  apply set_eq. intros x.
  rewrite !elem_of_union, !elem_of_singleton.
  pose proof (not_elem_of_empty (C := gset tweet) x). tauto.
Qed.

Lemma sample_scraper_loop :
  scraper_loop Sample.services Sample.args Sample.api my_queries ∅
  = Ok Sample.collected.
Proof.
  unfold my_queries. cbn [scraper_loop].
  change (items Sample.services Sample.api
            "southern accent -filter:retweets" (Cli.n Sample.args))
    with (Ok (A := list status)
            [ Sample.status_dc; Sample.status_seattle; Sample.status_dc ]).
  cbn [mbind result_bind]. rewrite sample_first_query.
  cbn [mbind result_bind].
  change (items Sample.services Sample.api
            "new york accent -filter:retweets" (Cli.n Sample.args))
    with (Ok (A := list status) [ Sample.status_seattle ]).
  cbn [mbind result_bind]. rewrite sample_second_query.
  cbn [mbind result_bind].
  change (items Sample.services Sample.api
            "californian accent -filter:retweets" (Cli.n Sample.args))
    with (Ok (A := list status) []).
  cbn [mbind result_bind map_get_data].
  unfold add_all, Sample.collected. cbn [fold_left].
  rewrite sample_union. exact eq_refl.
Qed.

Lemma dedup_is_structural_witness :
  scraper_loop Sample.services Sample.args Sample.api my_queries ∅
  = Ok Sample.collected
  /\ size (add_all ∅ [ Sample.dc; Sample.dc ]) = 1
  /\ (Sample.dc <> Sample.seattle ->
      size (add_all ∅ [ Sample.dc; Sample.seattle ]) = 2)
  /\ (Sample.dc ∈ Sample.collected <->
      exists search results temp_list,
        In search my_queries
        /\ items Sample.services Sample.api search (Cli.n Sample.args)
           = Ok results
        /\ map_get_data results = Ok temp_list
        /\ In Sample.dc temp_list)
  /\ List.NoDup (elements Sample.collected).
Proof.
  split; [exact sample_scraper_loop|].
  exact (dedup_is_structural Sample.services Sample.args Sample.api
           my_queries Sample.collected Sample.dc Sample.seattle Sample.dc
           sample_scraper_loop).
Defined.

(** ** The Writer *)

Lemma get_of_keys {V B : Type} (g : option V -> B) (d : Dict.t V) :
  List.NoDup (Dict.keys d) ->
  map (fun k => g (Dict.get k d)) (Dict.keys d)
  = map (fun v => g (Some v)) (Dict.values d).
Proof.
  unfold Dict.keys, Dict.values.
  induction d as [|[k v] d IH]; intros Hnd; [reflexivity|].
  cbn [map fst snd] in Hnd. apply List.NoDup_cons_iff in Hnd as [Hk Hnd].
  cbn [map fst snd Dict.get]. rewrite String.eqb_refl.
  f_equal. rewrite <- (IH Hnd). apply map_ext_in. intros k' Hk'.
  destruct (String.eqb_spec k' k) as [->|Hne]; [contradiction | reflexivity].
Qed.

Lemma writerow_ends_line (flds : list (list ascii)) :
  exists body, Csv.writerow flds = body ++ [ Csv.LF ].
Proof.
  unfold Csv.writerow. destruct flds as [|[|c x] [|y rest]];
    try (eexists; reflexivity).
  exists [ Csv.quotechar; Csv.quotechar ]. reflexivity.
Qed.

Section WriterFacts.

Context {float : Type}.
Variable w : world float.
Variable parser : Cli.Namespace.

Lemma fieldnames_nodup : List.NoDup fieldnames.
Proof.
  repeat (apply List.NoDup_cons; [vm_compute; intuition discriminate|]).
  apply List.NoDup_nil.
Qed.

(** A dictionary with the header's keys is written whole, in its own
    order, and never refused. *)
Lemma dict_to_list_scored (row : Dict.t (cell float)) :
  Dict.keys row = fieldnames ->
  dict_to_list w row = Ok (map (cell_text w) (Dict.values row)).
Proof.
  intros Hk. unfold dict_to_list. rewrite Hk.
  replace (forallb (fun k => Cli.one_of fieldnames k) fieldnames) with true
    by reflexivity.
  f_equal. rewrite <- Hk.
  apply (get_of_keys (fun o => match o with
                               | Some c => cell_text w c
                               | None => []
                               end) row).
  rewrite Hk. exact fieldnames_nodup.
Qed.

Lemma writerows_scored (rows : list (Dict.t (cell float))) :
  forall csvfile,
    Forall (fun row => Dict.keys row = fieldnames) rows ->
    writerows w rows csvfile
    = (csvfile ++ concat (map (data_row w) rows), Ok tt).
Proof.
  induction rows as [|row rows IH]; intros csvfile Hk.
  - cbn. now rewrite app_nil_r.
  - apply Forall_cons_iff in Hk as [Hrow Hrows].
    cbn [writerows]. rewrite (dict_to_list_scored row Hrow), (IH _ Hrows).
    cbn [map concat]. unfold data_row at 2. now rewrite <- app_assoc.
Qed.

Lemma writeheader_text : writeheader [] = header_row.
Proof. reflexivity. Qed.

(** What [write_to_csv] does with rows that carry the header's keys. *)
Lemma write_to_csv_scored
    (final_tweets : list (Dict.t (cell float))) (st : state) :
  Forall (fun row => Dict.keys row = fieldnames) final_tweets ->
  open_for_writing w (Cli.f parser) = Ok tt ->
  write_to_csv w parser final_tweets st
  = ({| stdout := stdout st
                  ++ [ ("All done! Your tweets have been saved to "
                        ++ Cli.f parser)%string ];
        files := <[ Cli.f parser :=
                      string_of_list_ascii
                        (header_row ++ concat (map (data_row w) final_tweets)) ]>
                   (files st) |},
     Ok tt).
Proof.
  intros Hk Hopen.
  unfold write_to_csv, mbind, io_bind, call. rewrite Hopen.
  rewrite (writerows_scored final_tweets _ Hk), writeheader_text.
  reflexivity.
Qed.

(** C5: for every sequence of scored records, empty or not, the file
    the Writer leaves starts with the header line
    created_at,name,screen_name,location,description,text,polarity,subjectivity
    and continues with one row per record, in the order of the input;
    the header and every row end with exactly the line terminator, one
    newline.  With no record the file is the header line alone. *)
Theorem writer_header_then_rows
    (final_tweets : list (Dict.t (cell float))) (st : state) :
  Forall (fun row => Dict.keys row = fieldnames) final_tweets ->
  open_for_writing w (Cli.f parser) = Ok tt ->
  write_to_csv w parser final_tweets st
  = ({| stdout := stdout st
                  ++ [ ("All done! Your tweets have been saved to "
                        ++ Cli.f parser)%string ];
        files := <[ Cli.f parser :=
                      string_of_list_ascii
                        (header_row ++ concat (map (data_row w) final_tweets)) ]>
                   (files st) |},
     Ok tt)
  /\ files (fst (write_to_csv w parser [] st))
     = <[ Cli.f parser := string_of_list_ascii header_row ]> (files st)
  /\ (forall row, In row final_tweets ->
                  exists body, data_row w row = body ++ [ Csv.LF ])
  /\ length (map (data_row w) final_tweets) = length final_tweets.
Proof.
  intros Hk Hopen. split; [|split; [|split]].
  - exact (write_to_csv_scored final_tweets st Hk Hopen).
  - rewrite (write_to_csv_scored [] st (List.Forall_nil _) Hopen).
    cbn [fst files map concat]. now rewrite app_nil_r.
  - intros row _. apply writerow_ends_line.
  - apply length_map.
Qed.

End WriterFacts.

Lemma writer_header_then_rows_witness :
  Forall (fun row => Dict.keys row = fieldnames) [ Sample.scored Sample.dc ]
  /\ open_for_writing Sample.services (Cli.f Sample.args) = Ok tt
  /\ files (fst (write_to_csv Sample.services Sample.args
                   [ Sample.scored Sample.dc ] Sample.fresh))
     !! "your_tweets.csv"
     = Some (string_of_list_ascii
               (header_row
                ++ chars "Wed Jan 02 12:00:00 +0000 2019,Ann,ann,Washington DC,,y'all are great,0.5,0.5"
                ++ [ Csv.LF ])).
Proof.
  assert (Hk : Forall (fun row => Dict.keys row = fieldnames)
                      [ Sample.scored Sample.dc ]) by (repeat constructor).
  split; [exact Hk|]. split; [reflexivity|].
  destruct (writer_header_then_rows Sample.services Sample.args
              [ Sample.scored Sample.dc ] Sample.fresh Hk eq_refl)
    as [H _].
  rewrite H. vm_compute. reflexivity.
Defined.

(** ** The pipeline as a whole *)

Section PipelineFacts.

Context {float : Type}.
Variable w : world float.
Variable parser : Cli.Namespace.

(** Every row [filter] returns is the scored dictionary of one of its
    input records. *)
Lemma filter_loop_rows (tweet_tup : list tweet) :
  forall saved out row,
    filter_loop w tweet_tup saved = Ok out ->
    In row out ->
    In row saved \/ exists t, In t tweet_tup /\ score w t = Ok row.
Proof.
  induction tweet_tup as [|t rest IH]; intros saved out row H Hin.
  - injection H as <-. now left.
  - cbn [filter_loop] in H. apply bind_ok in H as (keep & _ & H).
    destruct keep.
    + apply bind_ok in H as (r & Hs & H).
      destruct (IH _ _ row H Hin) as [Hsaved | (t' & Ht' & Hs')].
      * apply in_app_or in Hsaved as [Hsaved | [<- | []]]; [now left|].
        right. exists t. split; [now left | exact Hs].
      * right. exists t'. split; [now right | exact Hs'].
    + destruct (IH _ _ row H Hin) as [Hsaved | (t' & Ht' & Hs')];
        [now left|].
      right. exists t'. split; [now right | exact Hs'].
Qed.

Lemma filter_rows_scored (S : gset tweet) (tweet_tup : list tweet)
    (out : list (Dict.t (cell float))) (row : Dict.t (cell float)) :
  (forall t, In t tweet_tup -> t ∈ S) ->
  filter w tweet_tup = Ok out ->
  In row out ->
  exists t, t ∈ S /\ score w t = Ok row.
Proof.
  intros Henum H Hin. unfold filter in H.
  destruct (filter_loop_rows _ _ _ row H Hin) as [[] | (t & Ht & Hs)].
  exists t. split; [exact (Henum t Ht) | exact Hs].
Qed.

Lemma elements_enumerate (S : gset tweet) (t : tweet) :
  In t (elements S) -> t ∈ S.
Proof. intros H. apply elem_of_elements, list_elem_of_In. exact H. Qed.

(** The rows made of well-formed records carry the header's keys. *)
Lemma filter_rows_keys (tweet_tup : list tweet)
    (out : list (Dict.t (cell float))) :
  (forall t, In t tweet_tup -> well_formed t) ->
  filter w tweet_tup = Ok out ->
  Forall (fun row => Dict.keys row = fieldnames) out.
Proof.
  intros Hwf H. apply Forall_forall. intros row Hin%list_elem_of_In.
  unfold filter in H.
  destruct (filter_loop_rows _ _ _ row H Hin) as [[] | (t & Ht & Hs)].
  exact (keys_score w t row (Hwf t Ht) Hs).
Qed.

(** C4: every record [get_data] produces has exactly the six keys
    created_at, name, screen_name, location, description, text, in that
    order.  So has every member of the set [scraper] returns, and, in
    whatever order [filter] goes through that set, every row it makes
    keeps these six entries in front of the two scores: the keys of the
    row are the writer's field names, in the header's order, and the
    writer emits the values in that same order. *)
Theorem six_fields_in_fixed_order
    (api : API) (queries : list string) (S : gset tweet)
    (tweet_tup : list tweet) (out : list (Dict.t (cell float))) :
  scraper_loop w parser api queries ∅ = Ok S ->
  (forall t, In t tweet_tup -> t ∈ S) ->
  filter w tweet_tup = Ok out ->
  (forall st t, get_data st = Ok t -> Dict.keys t = record_keys)
  /\ (forall t, t ∈ S -> Dict.keys t = record_keys)
  /\ (forall row, In row out ->
        Dict.keys row = record_keys ++ [ "polarity"; "subjectivity" ]
        /\ Dict.keys row = fieldnames
        /\ Dict.keys (record_of row) = record_keys
        /\ record_of row ∈ S
        /\ dict_to_list w row = Ok (map (cell_text w) (Dict.values row))).
Proof.
  intros HS Henum Hout.
  assert (Hwf : forall t, t ∈ S -> well_formed t).
  { intros t Ht. exact (scraper_loop_well_formed w parser api queries S t HS Ht). }
  split; [|split].
  - intros st t Hg. exact (get_data_keys st t Hg).
  - exact Hwf.
  - intros row Hin.
    destruct (filter_rows_scored S tweet_tup out row Henum Hout Hin)
      as (t & Ht & Hs).
    pose proof (keys_score w t row (Hwf t Ht) Hs) as Hk.
    rewrite (record_of_score w t row (Hwf t Ht) Hs).
    split; [exact Hk|]. split; [exact Hk|]. split; [exact (Hwf t Ht)|].
    split; [exact Ht|]. now apply dict_to_list_scored.
Qed.

Lemma start_api_refused (st : state) :
  get_authorization_url w = Raise TweepError ->
  start_api w st = (said st "You're not in! API did not connect.", Ok the_api).
Proof.
  intros H. unfold start_api, try_except, mbind, io_bind, call.
  rewrite H. reflexivity.
Qed.

Lemma start_api_accepted (st : state) (url : string) :
  get_authorization_url w = Ok url ->
  start_api w st = (said st "You're in! API connected.", Ok the_api).
Proof.
  intros H. unfold start_api, try_except, mbind, io_bind, call.
  rewrite H. reflexivity.
Qed.

(** A run whose searches, scoring and file succeed ends normally,
    whatever [start_api] printed. *)
Lemma main_after_start_api (st st1 : state) (S : gset tweet)
    (out : list (Dict.t (cell float))) :
  start_api w st = (st1, Ok the_api) ->
  scraper_loop w parser the_api my_queries ∅ = Ok S ->
  filter w (elements S) = Ok out ->
  open_for_writing w (Cli.f parser) = Ok tt ->
  main w parser st
  = ({| stdout := stdout st1
                  ++ [ ("All done! Your tweets have been saved to "
                        ++ Cli.f parser)%string ];
        files := <[ Cli.f parser :=
                      string_of_list_ascii
                        (header_row ++ concat (map (data_row w) out)) ]>
                   (files st1) |},
     Ok tt).
Proof.
  intros Hstart HS Hout Hopen.
  assert (Hk : Forall (fun row => Dict.keys row = fieldnames) out).
  { apply (filter_rows_keys (elements S) out); [|exact Hout].
    intros t Ht.
    exact (scraper_loop_well_formed w parser the_api my_queries S t HS
             (elements_enumerate S t Ht)). }
  unfold main, scraper.
  unfold mbind at 1 2 3, io_bind. rewrite Hstart.
  unfold call at 1. rewrite HS. unfold call at 1. rewrite Hout.
  exact (write_to_csv_scored w parser out st1 Hk Hopen).
Qed.

(** C7: when the authentication call raises, [start_api] catches the
    error, prints its message and returns the API handle; [scraper]
    goes on to run the queries with that handle.  The failure alone
    does not end the run: if the searches, the scoring and the file
    succeed, [main] ends normally with the file written. *)
Theorem authentication_failure_is_not_fatal
    (queries : list string) (st : state) :
  get_authorization_url w = Raise TweepError ->
  start_api w st
  = (said st "You're not in! API did not connect.", Ok the_api)
  /\ scraper w parser queries st
     = (said st "You're not in! API did not connect.",
        scraper_loop w parser the_api queries ∅)
  /\ (forall S out,
        scraper_loop w parser the_api my_queries ∅ = Ok S ->
        filter w (elements S) = Ok out ->
        open_for_writing w (Cli.f parser) = Ok tt ->
        snd (main w parser st) = Ok tt
        /\ is_Some (files (fst (main w parser st)) !! Cli.f parser)).
Proof.
  intros H. pose proof (start_api_refused st H) as Hstart.
  split; [exact Hstart|]. split.
  - unfold scraper, mbind, io_bind. rewrite Hstart. reflexivity.
  - intros S out HS Hout Hopen.
    rewrite (main_after_start_api st _ S out Hstart HS Hout Hopen).
    cbn [fst snd files]. split; [reflexivity|].
    rewrite lookup_insert_eq. eauto.
Qed.

End PipelineFacts.

Lemma sample_enumeration (t : tweet) :
  In t [ Sample.dc; Sample.seattle ] -> t ∈ Sample.collected.
Proof.
  unfold Sample.collected. rewrite elem_of_union, !elem_of_singleton.
  intros [<- | [<- | []]]; auto.
Qed.

Lemma six_fields_in_fixed_order_witness :
  scraper_loop Sample.services Sample.args Sample.api my_queries ∅
  = Ok Sample.collected
  /\ (forall t, In t [ Sample.dc; Sample.seattle ] -> t ∈ Sample.collected)
  /\ filter Sample.services [ Sample.dc; Sample.seattle ]
     = Ok [ Sample.scored Sample.dc ]
  /\ Dict.keys (Sample.scored Sample.dc) = fieldnames
  /\ record_of (Sample.scored Sample.dc) ∈ Sample.collected.
Proof.
  assert (Hout : filter Sample.services [ Sample.dc; Sample.seattle ]
                 = Ok [ Sample.scored Sample.dc ]) by reflexivity.
  destruct (six_fields_in_fixed_order Sample.services Sample.args Sample.api
              my_queries Sample.collected [ Sample.dc; Sample.seattle ]
              [ Sample.scored Sample.dc ]
              sample_scraper_loop sample_enumeration Hout)
    as (_ & _ & Hrows).
  split; [exact sample_scraper_loop|]. split; [exact sample_enumeration|].
  split; [exact Hout|].
  destruct (Hrows (Sample.scored Sample.dc)) as (_ & Hk & _ & Hin & _);
    [now left|].
  split; [exact Hk | exact Hin].
Defined.

Lemma authentication_failure_is_not_fatal_witness :
  get_authorization_url Sample.services = Raise TweepError
  /\ start_api Sample.services Sample.fresh
     = (said Sample.fresh "You're not in! API did not connect.", Ok the_api)
  /\ scraper Sample.services Sample.args my_queries Sample.fresh
     = (said Sample.fresh "You're not in! API did not connect.",
        scraper_loop Sample.services Sample.args the_api my_queries ∅).
Proof.
  destruct (authentication_failure_is_not_fatal Sample.services Sample.args
              my_queries Sample.fresh eq_refl) as (Hstart & Hscraper & _).
  split; [reflexivity|]. split; [exact Hstart | exact Hscraper].
Defined.

(** ** The command line *)

Lemma one_of_In (flags : list string) (s : string) :
  Cli.one_of flags s = true <-> In s flags.
Proof.
  unfold Cli.one_of. rewrite existsb_exists. split.
  - intros (x & Hx & E). apply String.eqb_eq in E. now subst.
  - intros H. exists s. split; [exact H | apply String.eqb_refl].
Qed.

Lemma one_of_not_In (flags : list string) (s : string) :
  ~ In s flags -> Cli.one_of flags s = false.
Proof.
  intros H. destruct (Cli.one_of flags s) eqn:E; [|reflexivity].
  apply one_of_In in E. contradiction.
Qed.









(** ** Reading back what the writer wrote *)

Module CsvFacts.
Import Csv.

#[local] Abbreviation mk st F cur :=
  {| state := st; fields := F; field := cur |}.

Lemma ordinary_tests (c : ascii) :
  ordinary c = true ->
  newline c = false /\ Ascii.eqb c quotechar = false
  /\ Ascii.eqb c delimiter = false.
Proof.
  unfold ordinary, special, newline.
  destruct (Ascii.eqb c delimiter), (Ascii.eqb c quotechar),
    (Ascii.eqb c LF), (Ascii.eqb c CR); cbn; intuition discriminate.
Qed.

Lemma unquoted_ordinary (x : list ascii) :
  existsb special x = false -> no_CR x = true -> forallb ordinary x = true.
Proof.
  unfold no_CR, ordinary. induction x as [|c x IH]; [reflexivity|].
  cbn [existsb forallb]. intros Hs Hc.
  apply orb_false_iff in Hs as [Hs1 Hs2].
  apply andb_true_iff in Hc as [Hc1 Hc2].
  rewrite Hs1, Hc1, (IH Hs2 Hc2). reflexivity.
Qed.

Lemma ordinary_unquoted (x : list ascii) :
  forallb ordinary x = true -> existsb special x = false.
Proof.
  unfold ordinary. induction x as [|c x IH]; [reflexivity|].
  cbn [existsb forallb]. intros H. apply andb_true_iff in H as [Hc Hx].
  apply andb_true_iff in Hc as [Hc _]. rewrite (IH Hx).
  destruct (special c); [discriminate | reflexivity].
Qed.

Lemma writerow_join (flds : list (list ascii)) :
  flds <> [ [] ] -> writerow flds = join flds ++ [ LF ].
Proof.
  intros H. unfold writerow.
  destruct flds as [|[|c x] [|y flds]]; try reflexivity. contradiction.
Qed.

Section Limit.

Variable limit : N.

Lemma parse_chars_app (a b : list ascii) :
  forall r,
    parse_chars limit r (a ++ b)
    = parse_chars limit r a ≫= fun r' => parse_chars limit r' b.
Proof.
  induction a as [|c a IH]; intros r; [reflexivity|].
  cbn [app parse_chars].
  destruct (parse_process_char limit r (Some c)) as [r'|e]; [|reflexivity].
  cbn [mbind result_bind]. apply IH.
Qed.

(** A character is taken while the field is shorter than the limit,
    and refused once the field has reached it. *)
Lemma add_char_fits (r : reader) (c : ascii) (next : parser_state) :
  (N.of_nat (length (field r)) < limit)%N ->
  parse_add_char limit r c next
  = Ok {| state := next; fields := fields r; field := field r ++ [c] |}.
Proof.
  intros H. unfold parse_add_char.
  destruct (N.leb_spec limit (N.of_nat (length (field r))));
    [lia | reflexivity].
Qed.

Lemma add_char_full (r : reader) (c : ascii) (next : parser_state) :
  (limit <= N.of_nat (length (field r)))%N ->
  parse_add_char limit r c next = Raise CsvError.
Proof.
  intros H. unfold parse_add_char.
  destruct (N.leb_spec limit (N.of_nat (length (field r))));
    [reflexivity | lia].
Qed.

Lemma length_snoc_le (cur x : list ascii) (c : ascii) :
  (N.of_nat (length (cur ++ c :: x)) <= limit)%N ->
  (N.of_nat (length cur) < limit)%N.
Proof. rewrite length_app. cbn [length]. lia. Qed.

Lemma in_field_ordinary (x : list ascii) :
  forall F cur,
    forallb ordinary x = true ->
    (N.of_nat (length (cur ++ x)) <= limit)%N ->
    parse_chars limit (mk IN_FIELD F cur) x = Ok (mk IN_FIELD F (cur ++ x)).
Proof.
  induction x as [|c x IH]; intros F cur H Hlen.
  - cbn [parse_chars]. now rewrite app_nil_r.
  - cbn [forallb] in H. apply andb_true_iff in H as [Hc Hx].
    destruct (ordinary_tests c Hc) as (Hn & Hq & Hd).
    cbn [parse_chars]. unfold parse_process_char. cbn [state].
    rewrite Hn, Hd, add_char_fits by exact (length_snoc_le cur x c Hlen).
    cbn [mbind result_bind fields field].
    rewrite (IH F (cur ++ [c]) Hx) by (now rewrite <- app_assoc).
    now rewrite <- app_assoc.
Qed.

(** Past the limit the reader raises in the middle of the field. *)
Lemma in_field_too_long (x : list ascii) :
  forall F cur,
    forallb ordinary x = true ->
    (N.of_nat (length cur) <= limit)%N ->
    (limit < N.of_nat (length (cur ++ x)))%N ->
    parse_chars limit (mk IN_FIELD F cur) x = Raise CsvError.
Proof.
  induction x as [|c x IH]; intros F cur H Hcur Hlen.
  - rewrite app_nil_r in Hlen. lia.
  - cbn [forallb] in H. apply andb_true_iff in H as [Hc Hx].
    destruct (ordinary_tests c Hc) as (Hn & Hq & Hd).
    cbn [parse_chars]. unfold parse_process_char. cbn [state].
    rewrite Hn, Hd.
    destruct (N.leb_spec limit (N.of_nat (length cur))) as [Hfull|Hfits].
    + now rewrite add_char_full.
    + rewrite add_char_fits by exact Hfits.
      cbn [mbind result_bind fields field].
      apply (IH F (cur ++ [c]) Hx).
      * rewrite length_app. cbn [length]. lia.
      * now rewrite <- app_assoc.
Qed.

Lemma start_field_ordinary (x : list ascii) (F : list (list ascii)) :
  forallb ordinary x = true ->
  (N.of_nat (length x) <= limit)%N ->
  exists st,
    closing st = true
    /\ parse_chars limit (mk START_FIELD F []) x = Ok (mk st F x).
Proof.
  intros H Hlen. destruct x as [|c x].
  - exists START_FIELD. split; reflexivity.
  - cbn [forallb] in H. apply andb_true_iff in H as [Hc Hx].
    destruct (ordinary_tests c Hc) as (Hn & Hq & Hd).
    exists IN_FIELD. split; [reflexivity|].
    cbn [parse_chars]. unfold parse_process_char. cbn [state].
    rewrite Hn, Hq, Hd, add_char_fits by exact (length_snoc_le [] x c Hlen).
    cbn [mbind result_bind fields field app].
    exact (in_field_ordinary x F [c] Hx Hlen).
Qed.

Lemma quote_in_quoted (F : list (list ascii)) (cur : list ascii) :
  parse_process_char limit (mk IN_QUOTED_FIELD F cur) (Some quotechar)
  = Ok (mk QUOTE_IN_QUOTED_FIELD F cur).
Proof. reflexivity. Qed.

Lemma quote_after_quote (F : list (list ascii)) (cur : list ascii) :
  (N.of_nat (length cur) < limit)%N ->
  parse_process_char limit (mk QUOTE_IN_QUOTED_FIELD F cur) (Some quotechar)
  = Ok (mk IN_QUOTED_FIELD F (cur ++ [ quotechar ])).
Proof.
  intros H. unfold parse_process_char. cbn [state].
  rewrite Ascii.eqb_refl. now rewrite add_char_fits.
Qed.

Lemma other_in_quoted (F : list (list ascii)) (cur : list ascii) (c : ascii) :
  Ascii.eqb c quotechar = false ->
  (N.of_nat (length cur) < limit)%N ->
  parse_process_char limit (mk IN_QUOTED_FIELD F cur) (Some c)
  = Ok (mk IN_QUOTED_FIELD F (cur ++ [ c ])).
Proof.
  intros H Hlen. unfold parse_process_char. cbn [state]. rewrite H.
  now rewrite add_char_fits.
Qed.

Lemma in_quoted_escape (x : list ascii) :
  forall F cur,
    (N.of_nat (length (cur ++ x)) <= limit)%N ->
    parse_chars limit (mk IN_QUOTED_FIELD F cur) (escape x)
    = Ok (mk IN_QUOTED_FIELD F (cur ++ x)).
Proof.
  induction x as [|c x IH]; intros F cur Hlen.
  - cbn [escape parse_chars]. now rewrite app_nil_r.
  - pose proof (length_snoc_le cur x c Hlen) as Hcur.
    cbn [escape]. destruct (Ascii.eqb c quotechar) eqn:Hq.
    + apply Ascii.eqb_eq in Hq. subst c.
      cbn [parse_chars]. rewrite quote_in_quoted. cbn [mbind result_bind].
      rewrite (quote_after_quote F cur Hcur). cbn [mbind result_bind].
      rewrite (IH F (cur ++ [quotechar])) by (now rewrite <- app_assoc).
      now rewrite <- app_assoc.
    + cbn [parse_chars]. rewrite (other_in_quoted F cur c Hq Hcur).
      cbn [mbind result_bind].
      rewrite (IH F (cur ++ [c])) by (now rewrite <- app_assoc).
      now rewrite <- app_assoc.
Qed.

Lemma quote_at_start (F : list (list ascii)) :
  parse_process_char limit (mk START_FIELD F []) (Some quotechar)
  = Ok (mk IN_QUOTED_FIELD F []).
Proof. reflexivity. Qed.

Lemma start_field_quoted (x : list ascii) (F : list (list ascii)) :
  (N.of_nat (length x) <= limit)%N ->
  parse_chars limit (mk START_FIELD F []) (quotechar :: escape x ++ [quotechar])
  = Ok (mk QUOTE_IN_QUOTED_FIELD F x).
Proof.
  intros Hlen.
  cbn [parse_chars]. rewrite quote_at_start. cbn [mbind result_bind].
  rewrite parse_chars_app, (in_quoted_escape x F [] Hlen).
  cbn [mbind result_bind parse_chars app]. rewrite quote_in_quoted.
  reflexivity.
Qed.

Lemma readable_parts (x : list ascii) :
  readable limit x = true ->
  (existsb special x = true \/ forallb ordinary x = true)
  /\ (N.of_nat (length x) <= limit)%N.
Proof.
  unfold readable. intros H. apply andb_true_iff in H as [H Hlen].
  apply N.leb_le in Hlen. split; [|exact Hlen].
  destruct (existsb special x) eqn:Hs; [now left | right].
  now apply unquoted_ordinary.
Qed.

(** The text of a readable field, read from the start of a field,
    leaves the reader with that field, in a state where the field can
    close. *)
Lemma read_join_append (x : list ascii) (F : list (list ascii)) :
  readable limit x = true ->
  exists st,
    closing st = true
    /\ parse_chars limit (mk START_FIELD F []) (join_append x)
       = Ok (mk st F x).
Proof.
  intros H. destruct (readable_parts x H) as [Hq Hlen].
  unfold join_append. destruct (existsb special x) eqn:Hs.
  - exists QUOTE_IN_QUOTED_FIELD. split; [reflexivity|].
    now apply start_field_quoted.
  - destruct Hq as [Hq | Hq]; [discriminate|].
    now apply start_field_ordinary.
Qed.

Lemma close_with_delimiter (st : parser_state) (F : list (list ascii))
    (x : list ascii) :
  closing st = true ->
  parse_process_char limit (mk st F x) (Some delimiter)
  = Ok (mk START_FIELD (F ++ [x]) []).
Proof. destruct st; try discriminate; intros _; reflexivity. Qed.

Lemma close_with_LF (st : parser_state) (F : list (list ascii))
    (x : list ascii) :
  closing st = true ->
  parse_process_char limit (mk st F x) (Some LF)
  = Ok (mk EAT_CRNL (F ++ [x]) []).
Proof. destruct st; try discriminate; intros _; reflexivity. Qed.

(** The fields of a line, read from the start of a field. *)
Lemma read_join (flds : list (list ascii)) :
  forall F,
    flds <> [] ->
    forallb (readable limit) flds = true ->
    parse_chars limit (mk START_FIELD F []) (join flds ++ [ LF ])
    = Ok (mk EAT_CRNL (F ++ flds) []).
Proof.
  induction flds as [|x flds IH]; intros F Hne Hcr; [contradiction|].
  cbn [forallb] in Hcr. apply andb_true_iff in Hcr as [Hx Hrest].
  destruct (read_join_append x F Hx) as (st & Hst & Hparse).
  destruct flds as [|y flds].
  - cbn [join]. rewrite parse_chars_app, Hparse.
    cbn [mbind result_bind parse_chars]. now rewrite (close_with_LF st F x Hst).
  - change (join (x :: y :: flds))
      with (join_append x ++ delimiter :: join (y :: flds)).
    rewrite <- app_assoc, parse_chars_app, Hparse.
    cbn [mbind result_bind app parse_chars].
    rewrite (close_with_delimiter st F x Hst). cbn [mbind result_bind].
    rewrite (IH (F ++ [x])); [|discriminate | exact Hrest].
    now rewrite <- app_assoc.
Qed.

(** At the start of a record, a character other than a line end is
    read as at the start of a field. *)
Lemma start_record_as_field (c : ascii) (l : list ascii) :
  newline c = false ->
  parse_chars limit parse_reset (c :: l)
  = parse_chars limit (mk START_FIELD [] []) (c :: l).
Proof.
  intros Hn. cbn [parse_chars]. unfold parse_process_char, parse_reset.
  cbn [state]. rewrite Hn. reflexivity.
Qed.

Lemma join_append_head (x : list ascii) :
  readable limit x = true ->
  x <> [] ->
  exists c l, join_append x = c :: l /\ newline c = false.
Proof.
  intros H Hne. destruct (readable_parts x H) as [Hq _].
  unfold join_append. destruct (existsb special x) eqn:Hs.
  - exists quotechar, (escape x ++ [quotechar]). split; reflexivity.
  - destruct Hq as [Hq | Ho]; [discriminate|].
    destruct x as [|c x]; [contradiction|]. exists c, x.
    split; [reflexivity|].
    cbn [forallb] in Ho. apply andb_true_iff in Ho as [Ho _].
    now destruct (ordinary_tests c Ho).
Qed.

Lemma join_head (x y : list ascii) (flds : list (list ascii)) :
  readable limit x = true ->
  exists c l,
    join (x :: y :: flds) ++ [ LF ] = c :: l /\ newline c = false.
Proof.
  intros Hx.
  change (join (x :: y :: flds))
    with (join_append x ++ delimiter :: join (y :: flds)).
  destruct x as [|c x].
  - eexists _, _. split; reflexivity.
  - destruct (join_append_head (c :: x) Hx) as (c0 & l & E & Hn);
      [discriminate|].
    rewrite E. eexists _, _. split; [reflexivity | exact Hn].
Qed.

(** Reading back a written row gives its fields, when every field is
    readable. *)
Lemma read_writerow (flds : list (list ascii)) :
  forallb (readable limit) flds = true ->
  read_record_with limit (writerow flds) = Ok flds.
Proof.
  intros Hcr. unfold read_record_with.
  assert (H : parse_chars limit parse_reset (writerow flds)
              = Ok (mk EAT_CRNL flds [])).
  { destruct flds as [|x [|y flds]].
    - reflexivity.
    - destruct x as [|c x]; [reflexivity|].
      rewrite writerow_join by discriminate.
      pose proof Hcr as Hcr'. cbn [forallb] in Hcr'.
      apply andb_true_iff in Hcr' as [Hx _].
      destruct (join_append_head (c :: x) Hx) as (c0 & l & E & Hn);
        [discriminate|].
      assert (E' : join [c :: x] ++ [LF] = c0 :: (l ++ [LF])).
      { cbn [join]. rewrite E. reflexivity. }
      rewrite E', (start_record_as_field c0 (l ++ [LF]) Hn), <- E'.
      apply (read_join [c :: x] []); [discriminate | exact Hcr].
    - rewrite writerow_join by discriminate.
      pose proof Hcr as Hcr'. cbn [forallb] in Hcr'.
      apply andb_true_iff in Hcr' as [Hx _].
      destruct (join_head x y flds Hx) as (c0 & l & E & Hn).
      rewrite E, (start_record_as_field c0 l Hn), <- E.
      apply (read_join (x :: y :: flds) []); [discriminate | exact Hcr]. }
  rewrite H. reflexivity.
Qed.

(** A first field of unquoted characters that is longer than the limit
    makes the reader raise. *)
Lemma long_first_field (x y : list ascii) (flds : list (list ascii)) :
  forallb ordinary x = true ->
  (limit < N.of_nat (length x))%N ->
  read_record_with limit (writerow (x :: y :: flds)) = Raise CsvError.
Proof.
  intros Ho Hlen. unfold read_record_with.
  rewrite writerow_join by discriminate.
  change (join (x :: y :: flds))
    with (join_append x ++ delimiter :: join (y :: flds)).
  unfold join_append. rewrite (ordinary_unquoted x Ho).
  destruct x as [|c x]; [cbn [length] in Hlen; lia|].
  pose proof Ho as Ho'. cbn [forallb] in Ho'.
  apply andb_true_iff in Ho' as [Hc Hx].
  destruct (ordinary_tests c Hc) as (Hn & Hq & Hd).
  rewrite <- app_assoc.
  generalize ((delimiter :: join (y :: flds)) ++ [LF]). intros tail.
  change ((c :: x) ++ tail) with (c :: (x ++ tail)).
  rewrite (start_record_as_field c _ Hn).
  change (c :: (x ++ tail)) with ((c :: x) ++ tail).
  rewrite parse_chars_app.
  assert (Hraise : parse_chars limit (mk START_FIELD [] []) (c :: x)
                   = Raise CsvError).
  { cbn [parse_chars]. unfold parse_process_char. cbn [state].
    rewrite Hn, Hq, Hd.
    destruct (N.leb_spec limit (N.of_nat (@length ascii []))) as [Hfull|Hfits].
    - now rewrite add_char_full.
    - rewrite add_char_fits by exact Hfits.
      cbn [mbind result_bind fields field app].
      apply (in_field_too_long x [] [c] Hx); [|exact Hlen].
      cbn [length] in *. lia. }
  rewrite Hraise. reflexivity.
Qed.

(** *** What the reader does with the other fields *)

Lemma readable_nil : readable limit [] = true.
Proof.
  unfold readable. cbn [existsb no_CR forallb orb andb length].
  apply N.leb_le. lia.
Qed.

Lemma ordinary_no_CR (x : list ascii) :
  forallb ordinary x = true -> no_CR x = true.
Proof.
  unfold no_CR, ordinary. induction x as [|c x IH]; [reflexivity|].
  cbn [forallb]. intros H. apply andb_true_iff in H as [Hc Hx].
  apply andb_true_iff in Hc as [_ Hc]. now rewrite Hc, (IH Hx).
Qed.

(** An unquoted field is free of carriage returns, or has a first
    one. *)
Lemma first_CR (x : list ascii) :
  existsb special x = false ->
  forallb ordinary x = true
  \/ exists p q, x = p ++ CR :: q /\ forallb ordinary p = true.
Proof.
  induction x as [|c x IH]; intros Hs; [now left|].
  cbn [existsb] in Hs. apply orb_false_iff in Hs as [Hc Hx].
  destruct (Ascii.eqb c CR) eqn:Hcr.
  - apply Ascii.eqb_eq in Hcr. subst c. right. now exists [], x.
  - assert (Ho : ordinary c = true) by (unfold ordinary; now rewrite Hc, Hcr).
    destruct (IH Hx) as [Hall | (p & q & -> & Hp)].
    + left. cbn [forallb]. now rewrite Ho, Hall.
    + right. exists (c :: p), q. split; [reflexivity|].
      cbn [forallb]. now rewrite Ho, Hp.
Qed.

Lemma start_field_too_long (x : list ascii) (F : list (list ascii)) :
  forallb ordinary x = true ->
  (limit < N.of_nat (length x))%N ->
  parse_chars limit (mk START_FIELD F []) x = Raise CsvError.
Proof.
  intros Ho Hlen. destruct x as [|c x]; [cbn [length] in Hlen; lia|].
  cbn [forallb] in Ho. apply andb_true_iff in Ho as [Hc Hx].
  destruct (ordinary_tests c Hc) as (Hn & Hq & Hd).
  cbn [parse_chars]. unfold parse_process_char. cbn [state].
  rewrite Hn, Hq, Hd.
  destruct (N.leb_spec limit (N.of_nat (@length ascii []))) as [Hfull|Hfits].
  - now rewrite add_char_full.
  - rewrite add_char_fits by exact Hfits.
    cbn [mbind result_bind fields field app].
    apply (in_field_too_long x F [c] Hx); [|exact Hlen].
    cbn [length] in *. lia.
Qed.

Lemma in_quoted_too_long (x : list ascii) :
  forall F cur,
    (N.of_nat (length cur) <= limit)%N ->
    (limit < N.of_nat (length (cur ++ x)))%N ->
    parse_chars limit (mk IN_QUOTED_FIELD F cur) (escape x) = Raise CsvError.
Proof.
  induction x as [|c x IH]; intros F cur Hcur Hlen.
  - rewrite app_nil_r in Hlen. lia.
  - assert (Hnext : (N.of_nat (length cur) < limit)%N ->
                    parse_chars limit (mk IN_QUOTED_FIELD F (cur ++ [c]))
                      (escape x) = Raise CsvError).
    { intros Hfits. apply IH.
      - rewrite length_app. cbn [length]. lia.
      - now rewrite <- app_assoc. }
    cbn [escape]. destruct (Ascii.eqb c quotechar) eqn:Hq.
    + apply Ascii.eqb_eq in Hq. subst c.
      cbn [parse_chars]. rewrite quote_in_quoted. cbn [mbind result_bind].
      destruct (N.leb_spec limit (N.of_nat (length cur))) as [Hfull|Hfits].
      * unfold parse_process_char. cbn [state]. rewrite Ascii.eqb_refl.
        now rewrite add_char_full.
      * rewrite (quote_after_quote F cur Hfits). cbn [mbind result_bind].
        exact (Hnext Hfits).
    + cbn [parse_chars].
      destruct (N.leb_spec limit (N.of_nat (length cur))) as [Hfull|Hfits].
      * unfold parse_process_char. cbn [state]. rewrite Hq.
        now rewrite add_char_full.
      * rewrite (other_in_quoted F cur c Hq Hfits). cbn [mbind result_bind].
        exact (Hnext Hfits).
Qed.

Lemma close_with_CR (st : parser_state) (F : list (list ascii))
    (x : list ascii) :
  closing st = true ->
  parse_process_char limit (mk st F x) (Some CR)
  = Ok (mk EAT_CRNL (F ++ [x]) []).
Proof. destruct st; try discriminate; intros _; reflexivity. Qed.

(** Past a line end the reader takes line ends only. *)
Lemma eat_crnl_stays (l : list ascii) (r0 r : reader) :
  state r0 = EAT_CRNL ->
  parse_chars limit r0 l = Ok r -> r = r0.
Proof.
  intros Hst. induction l as [|c l IH]; cbn [parse_chars].
  - intros H. now inversion H.
  - unfold parse_process_char. rewrite Hst.
    destruct (newline c); [|discriminate]. exact IH.
Qed.

(** A field that is not readable is lost: whatever follows it, the
    reader raises, or ends the record before the end of the field. *)
Lemma unreadable_from_start_field (x : list ascii) (F : list (list ascii))
    (rest : list ascii) (r : reader) :
  readable limit x = false ->
  parse_chars limit (mk START_FIELD F []) (join_append x ++ rest) = Ok r ->
  exists p, p <> x /\ r = mk EAT_CRNL (F ++ [p]) [].
Proof.
  intros Hx. unfold join_append. destruct (existsb special x) eqn:Hs.
  - assert (Hlen : (limit < N.of_nat (length x))%N).
    { unfold readable in Hx. rewrite Hs in Hx. cbn [orb andb] in Hx.
      apply N.leb_gt in Hx. exact Hx. }
    cbn [app parse_chars]. rewrite quote_at_start. cbn [mbind result_bind].
    rewrite <- app_assoc, parse_chars_app.
    rewrite (in_quoted_too_long x F []); [discriminate | cbn [length]; lia|].
    exact Hlen.
  - destruct (first_CR x Hs) as [Ho | (p & q & E & Hp)].
    + assert (Hlen : (limit < N.of_nat (length x))%N).
      { unfold readable in Hx. rewrite (ordinary_no_CR x Ho), Hs in Hx.
        cbn [orb andb] in Hx. apply N.leb_gt in Hx. exact Hx. }
      rewrite parse_chars_app, (start_field_too_long x F Ho Hlen).
      discriminate.
    + subst x. rewrite <- app_assoc, parse_chars_app.
      destruct (N.leb_spec (N.of_nat (length p)) limit) as [Hfits | Hlong].
      * destruct (start_field_ordinary p F Hp Hfits) as (st & Hst & Hparse).
        rewrite Hparse. cbn [mbind result_bind app parse_chars].
        rewrite (close_with_CR st F p Hst). cbn [mbind result_bind].
        intros H. apply eat_crnl_stays in H; [|reflexivity].
        exists p. split; [|exact H].
        intros E. apply (f_equal (@length ascii)) in E.
        rewrite length_app in E. cbn [length] in E. lia.
      * rewrite (start_field_too_long p F Hp Hlong). discriminate.
Qed.

Lemma join_split (pre : list (list ascii)) (x : list ascii)
    (post : list (list ascii)) :
  join (pre ++ x :: post) ++ [LF]
  = delimited pre ++ join_append x ++ after_field post.
Proof.
  induction pre as [|a pre IH].
  - cbn [app delimited map concat]. destruct post as [|y post].
    + reflexivity.
    + change (join (x :: y :: post))
        with (join_append x ++ delimiter :: join (y :: post)).
      now rewrite <- app_assoc.
  - assert (E : join ((a :: pre) ++ x :: post)
                = join_append a ++ delimiter :: join (pre ++ x :: post)).
    { destruct pre; reflexivity. }
    rewrite E. unfold delimited in *. cbn [map concat].
    rewrite <- !app_assoc. cbn [app]. now rewrite <- IH.
Qed.

Lemma read_delimited (pre : list (list ascii)) :
  forall F tl,
    forallb (readable limit) pre = true ->
    parse_chars limit (mk START_FIELD F []) (delimited pre ++ tl)
    = parse_chars limit (mk START_FIELD (F ++ pre) []) tl.
Proof.
  induction pre as [|a pre IH]; intros F tl Hpre.
  - cbn [delimited map concat app]. now rewrite app_nil_r.
  - cbn [forallb] in Hpre. apply andb_true_iff in Hpre as [Ha Hpre].
    destruct (read_join_append a F Ha) as (st & Hst & Hparse).
    unfold delimited in *. cbn [map concat]. rewrite <- !app_assoc.
    rewrite parse_chars_app, Hparse. cbn [mbind result_bind app parse_chars].
    rewrite (close_with_delimiter st F a Hst). cbn [mbind result_bind].
    rewrite (IH (F ++ [a]) tl Hpre). now rewrite <- app_assoc.
Qed.

Lemma first_unreadable (flds : list (list ascii)) :
  forallb (readable limit) flds = false ->
  exists pre x post,
    flds = pre ++ x :: post
    /\ forallb (readable limit) pre = true
    /\ readable limit x = false.
Proof.
  induction flds as [|a flds IH]; [discriminate|].
  cbn [forallb]. destruct (readable limit a) eqn:Ha.
  - cbn [andb]. intros H. destruct (IH H) as (pre & x & post & -> & Hpre & Hx).
    exists (a :: pre), x, post. split; [reflexivity|]. split; [|exact Hx].
    cbn [forallb]. now rewrite Ha, Hpre.
  - intros _. now exists [], a, flds.
Qed.

(** The reader after the lost field gives a record that is not the
    row. *)
Lemma lost_field_differs (pre : list (list ascii)) (x p : list ascii)
    (post : list (list ascii)) (r : reader) :
  p <> x ->
  r = mk EAT_CRNL (pre ++ [p]) [] ->
  (r' ← parse_process_char limit r None;
   match state r' with
   | START_RECORD => Ok (fields r')
   | _ => Ok (fields r' ++ [field r'])
   end) <> Ok (pre ++ x :: post).
Proof.
  intros Hp -> H. cbn in H. inversion H as [E].
  apply app_inv_head in E. inversion E. contradiction.
Qed.

Lemma start_record_newline (c : ascii) :
  newline c = true ->
  parse_process_char limit parse_reset (Some c)
  = Ok (goto parse_reset EAT_CRNL).
Proof.
  intros Hn. unfold parse_process_char, parse_reset. cbn [state].
  rewrite Hn. reflexivity.
Qed.

Lemma read_join_only (flds : list (list ascii)) :
  read_record_with limit (join flds ++ [LF]) = Ok flds ->
  forallb (readable limit) flds = true.
Proof.
  intros H. destruct (forallb (readable limit) flds) eqn:Hall; [reflexivity|].
  exfalso.
  destruct (first_unreadable flds Hall) as (pre & x & post & -> & Hpre & Hx).
  revert H. unfold read_record_with. rewrite join_split.
  assert (Hfield :
    forall l, l = delimited pre ++ join_append x ++ after_field post ->
    parse_chars limit parse_reset l
    = parse_chars limit (mk START_FIELD [] []) l ->
    (r ← parse_chars limit parse_reset l;
     r' ← parse_process_char limit r None;
     match state r' with
     | START_RECORD => Ok (fields r')
     | _ => Ok (fields r' ++ [field r'])
     end) <> Ok (pre ++ x :: post)).
  { intros l -> ->. rewrite (read_delimited pre [] _ Hpre). cbn [app].
    destruct (parse_chars limit (mk START_FIELD pre [])
                (join_append x ++ after_field post)) as [r|e] eqn:Hr;
      [|discriminate].
    destruct (unreadable_from_start_field x pre _ r Hx Hr) as (p & Hp & E).
    cbn [mbind result_bind]. exact (lost_field_differs pre x p post r Hp E). }
  destruct pre as [|a pre].
  - cbn [delimited map concat app] in *.
    unfold join_append in *. destruct (existsb special x) eqn:Hs.
    + apply Hfield; [reflexivity|].
      cbn [app]. now apply start_record_as_field.
    + destruct x as [|c x]; [now rewrite readable_nil in Hx|].
      destruct (newline c) eqn:Hn.
      * clear Hfield. cbn [app parse_chars].
        rewrite (start_record_newline c Hn). cbn [mbind result_bind].
        destruct (parse_chars limit (goto parse_reset EAT_CRNL)
                    (x ++ after_field post)) as [r|e] eqn:Hr; [|discriminate].
        apply eat_crnl_stays in Hr; [|reflexivity]. subst r.
        cbn. discriminate.
      * apply Hfield; [reflexivity|].
        cbn [app]. now apply start_record_as_field.
  - cbn [forallb] in Hpre. apply andb_true_iff in Hpre as [Ha Hpre'].
    assert (Hhead : exists c l,
              delimited (a :: pre) ++ join_append x ++ after_field post = c :: l
              /\ newline c = false).
    { unfold delimited. cbn [map concat]. destruct a as [|c a].
      - eexists _, _. split; reflexivity.
      - destruct (join_append_head (c :: a) Ha) as (c0 & l & E & Hn);
          [discriminate|].
        rewrite E. eexists _, _. split; [reflexivity | exact Hn]. }
    destruct Hhead as (c & l & E & Hn).
    apply Hfield; [reflexivity|].
    rewrite E. now apply start_record_as_field.
Qed.

(** A written row is read back as its fields only when every field is
    readable. *)
Lemma read_writerow_only (flds : list (list ascii)) :
  read_record_with limit (writerow flds) = Ok flds ->
  forallb (readable limit) flds = true.
Proof.
  destruct flds as [|[|c x] [|y flds]].
  - reflexivity.
  - intros _. cbn [forallb]. now rewrite readable_nil.
  - rewrite writerow_join by discriminate. apply read_join_only.
  - rewrite writerow_join by discriminate. apply read_join_only.
  - rewrite writerow_join by discriminate. apply read_join_only.
Qed.

End Limit.

End CsvFacts.

(** ** The CSV round trip *)

Lemma readable_values (limit : N) (t : tweet) :
  Forall (fun v => readable limit (value_text v) = true) (Dict.values t)
  <-> forallb (readable limit) (map value_text (Dict.values t)) = true.
Proof.
  rewrite forallb_forall, List.Forall_forall. split.
  - intros H fld Hin. apply in_map_iff in Hin as (v & <- & Hv). now apply H.
  - intros H v Hv. apply H. now apply in_map.
Qed.

Lemma read_back_text (v : value) :
  Some (string_of_list_ascii (value_text v)) = read_back v.
Proof.
  destruct v as [s|]; [|reflexivity].
  cbn [value_text read_back]. unfold chars.
  now rewrite string_of_list_ascii_of_string.
Qed.

Lemma read_back_texts (vs : list value) :
  map read_back vs
  = map (fun fld => Some (string_of_list_ascii fld)) (map value_text vs).
Proof. rewrite map_map. apply map_ext. intros v. now rewrite read_back_text. Qed.

Lemma texts_injective (flds flds' : list (list ascii)) :
  map (fun fld => Some (string_of_list_ascii fld)) flds
  = map (fun fld => Some (string_of_list_ascii fld)) flds' ->
  flds = flds'.
Proof.
  revert flds'. induction flds as [|x flds IH]; intros [|y flds'];
    cbn [map]; try discriminate; [reflexivity|].
  intros H. inversion H as [[Hx Hrest]].
  apply (f_equal list_ascii_of_string) in Hx.
  rewrite !list_ascii_of_string_of_list_ascii in Hx.
  now rewrite Hx, (IH flds' Hrest).
Qed.

Lemma all_some_read_back (vs : list value) :
  Forall is_Some vs <-> map read_back vs = vs.
Proof.
  induction vs as [|v vs IH]; [split; [reflexivity | constructor]|].
  cbn [map]. split.
  - intros H. apply Forall_cons_iff in H as [[s ->] Hvs].
    cbn [read_back]. f_equal. now apply IH.
  - intros H. inversion H as [[Hv Hvs]]. rewrite Hvs. constructor.
    + destruct v; [now eexists | discriminate].
    + now apply IH.
Qed.

Lemma read_values_all_some (limit : N) (line : list ascii)
    (vs : list value) :
  read_values_with limit line = Ok vs -> Forall is_Some vs.
Proof.
  unfold read_values_with.
  destruct (Csv.read_record_with limit line) as [flds|e]; [|discriminate].
  cbn [mbind result_bind]. intros H. inversion H.
  apply List.Forall_forall. intros v Hv.
  apply in_map_iff in Hv as (fld & <- & _). now eexists.
Qed.

(** [write_record] is the row the Writer makes of the record's cells. *)
Lemma write_record_as_writer {float : Type} (w : world float) (t : tweet) :
  write_record t
  = Csv.writerow (map (cell_text w) (Dict.values (as_cells t))).
Proof.
  unfold write_record, Dict.values, as_cells. rewrite !map_map.
  apply (f_equal Csv.writerow), map_ext. intros [k [s|]]; reflexivity.
Qed.

(** Under any field size limit, the row of a record whose values are
    all readable reads back as the values, [None] as the empty string;
    and only such a row does. *)
Lemma read_values_with_write_record (limit : N) (t : tweet) :
  Forall (fun v => readable limit (value_text v) = true) (Dict.values t) ->
  read_values_with limit (write_record t)
  = Ok (map read_back (Dict.values t)).
Proof.
  intros H. apply readable_values in H.
  unfold read_values_with, write_record.
  rewrite (CsvFacts.read_writerow limit _ H). cbn [mbind result_bind].
  now rewrite read_back_texts.
Qed.

Lemma read_values_with_only (limit : N) (t : tweet) :
  read_values_with limit (write_record t)
  = Ok (map read_back (Dict.values t)) ->
  Forall (fun v => readable limit (value_text v) = true) (Dict.values t).
Proof.
  unfold read_values_with, write_record. intros H.
  apply readable_values, CsvFacts.read_writerow_only.
  destruct (Csv.read_record_with limit
              (Csv.writerow (map value_text (Dict.values t))))
    as [flds|e]; [|discriminate].
  cbn [mbind result_bind] in H. inversion H as [E].
  rewrite read_back_texts in E. now rewrite (texts_injective _ _ E).
Qed.

(** C9, as the code has it.  Call a value readable when its text is at
    most 131072 characters long, the reader's field size limit, and
    holds a carriage return only together with a comma, a double quote
    or a line feed, so that the writer quotes it.  Writing an
    ExtractedRecord as a row and reading the row back gives the
    record's values with every [None] replaced by the empty string
    exactly when every value is readable; and it gives the record's
    values themselves exactly when, besides, all of them are
    strings. *)
Theorem csv_round_trip (t : tweet) :
  (read_values (write_record t) = Ok (map read_back (Dict.values t))
   <-> readable_record t)
  /\ (read_values (write_record t) = Ok (Dict.values t)
      <-> Forall is_Some (Dict.values t) /\ readable_record t).
Proof.
  assert (H : read_values (write_record t)
              = Ok (map read_back (Dict.values t))
              <-> readable_record t).
  { split.
    - apply read_values_with_only.
    - apply read_values_with_write_record. }
  split; [exact H|]. split.
  - intros E.
    assert (Hs : Forall is_Some (Dict.values t))
      by exact (read_values_all_some _ _ _ E).
    split; [exact Hs|]. apply H.
    now rewrite (proj1 (all_some_read_back _) Hs).
  - intros [Hs Hr]. apply H in Hr.
    now rewrite (proj1 (all_some_read_back _) Hs) in Hr.
Qed.

Lemma csv_round_trip_witness :
  Forall is_Some (Dict.values Sample.dc_two_lines_and_a_comma)
  /\ readable_record Sample.dc_two_lines_and_a_comma
  /\ ~ readable_record Sample.dc_two_lines
  /\ read_values (write_record Sample.dc_two_lines_and_a_comma)
     = Ok (Dict.values Sample.dc_two_lines_and_a_comma)
  /\ read_values (write_record Sample.dc_two_lines)
     <> Ok (Dict.values Sample.dc_two_lines).
Proof.
  assert (Hs : Forall is_Some (Dict.values Sample.dc_two_lines_and_a_comma))
    by (repeat (constructor; [eexists; reflexivity|]); constructor).
  assert (Hr : readable_record Sample.dc_two_lines_and_a_comma)
    by (repeat (constructor; [reflexivity|]); constructor).
  assert (Hn : ~ readable_record Sample.dc_two_lines).
  { intros H. unfold readable_record in H.
    rewrite List.Forall_forall in H.
    specialize (H (Some Sample.two_lines)).
    assert (Hin : In (Some Sample.two_lines) (Dict.values Sample.dc_two_lines))
      by (cbn; tauto).
    apply H in Hin. vm_compute in Hin. discriminate Hin. }
  split; [exact Hs|]. split; [exact Hr|]. split; [exact Hn|].
  split.
  - destruct (csv_round_trip Sample.dc_two_lines_and_a_comma) as [_ H].
    apply H. split; [exact Hs | exact Hr].
  - destruct (csv_round_trip Sample.dc_two_lines) as [_ H].
    intros E. apply H in E. destruct E as [_ E]. exact (Hn E).
Defined.

(** C9, as stated, fails: a record whose description is [None] is
    written as the same row as the record whose description is the
    empty string, and reads back as the latter. *)
Lemma none_reads_back_as_empty_string :
  write_record Sample.dc_no_description = write_record Sample.dc
  /\ read_values (write_record Sample.dc_no_description)
     = Ok (Dict.values Sample.dc)
  /\ read_values (write_record Sample.dc_no_description)
     <> Ok (Dict.values Sample.dc_no_description).
Proof.
  split; [reflexivity|]. split; [reflexivity|].
  intros H. vm_compute in H. discriminate H.
Qed.

(** A lone carriage return is written unquoted, and the reader takes it
    for the end of the line. *)
Lemma carriage_return_is_not_read_back :
  Forall is_Some (Dict.values Sample.dc_two_lines)
  /\ read_values (write_record Sample.dc_two_lines) = Raise CsvError.
Proof.
  split; [|reflexivity].
  repeat (constructor; [eexists; reflexivity|]); constructor.
Qed.

(** With a comma beside it the carriage return is inside the quotes,
    and is read back. *)
Lemma quoted_carriage_return_is_read_back :
  read_values (write_record Sample.dc_two_lines_and_a_comma)
  = Ok (Dict.values Sample.dc_two_lines_and_a_comma).
Proof. reflexivity. Qed.

(** A value of more than 131072 unquoted characters is written whole,
    and the reader raises inside it. *)
Lemma long_value_is_not_read_back (k k' : string) (s : string) (v : value)
    (t : tweet) :
  forallb Csv.ordinary (chars s) = true ->
  (Csv.field_size_limit < N.of_nat (length (chars s)))%N ->
  read_values (write_record ((k, Some s) :: (k', v) :: t)) = Raise CsvError.
Proof.
  intros Ho Hlen. unfold read_values, read_values_with, write_record.
  unfold Dict.values. cbn [map snd value_text].
  now rewrite (CsvFacts.long_first_field _ _ _ _ Ho Hlen).
Qed.

(** * Further properties of the script *)

(** ** Extraction *)

Lemma get_data_extracted (st : status) :
  get_data st = match user st with
                | Some u => Ok (extracted u (full_text st))
                | None => Raise AttributeError
                end.
Proof. unfold get_data. destruct (user st); reflexivity. Qed.

(** X2: [get_data] is a projection.  On a status with a user it
    returns the five profile values under their names, [None] standing
    for a key the profile lacks, followed by the text; two statuses
    that agree on these five values and on the text give the same
    record, whatever else they hold. *)
Theorem get_data_projects (st st' : status) (u u' : gmap string string) :
  user st = Some u ->
  user st' = Some u' ->
  get_data st = Ok (extracted u (full_text st))
  /\ (forall fld, In fld metadata_fields ->
        Dict.get fld (extracted u (full_text st)) = Some (u !! fld))
  /\ Dict.get "text" (extracted u (full_text st)) = Some (full_text st)
  /\ ((forall fld, In fld metadata_fields -> u !! fld = u' !! fld) ->
      full_text st = full_text st' ->
      get_data st = get_data st').
Proof.
  intros Hu Hu'. split; [|split; [|split]].
  - rewrite get_data_extracted, Hu. reflexivity.
  - intros fld Hin.
    repeat (destruct Hin as [<- | Hin]; [reflexivity|]). destruct Hin.
  - reflexivity.
  - intros Hagree Htext. rewrite !get_data_extracted, Hu, Hu'.
    unfold extracted. rewrite Htext.
    rewrite (Hagree "created_at"), (Hagree "name"), (Hagree "screen_name"),
      (Hagree "location"), (Hagree "description");
      try reflexivity; unfold metadata_fields; cbn [In]; tauto.
Qed.

Lemma get_data_projects_witness :
  user Sample.status_dc = Some (Sample.profile "Washington DC" "")
  /\ get_data Sample.status_dc
     = Ok (extracted (Sample.profile "Washington DC" "")
                     (Some "y'all are great"))
  /\ Dict.get "location"
       (extracted (Sample.profile "Washington DC" "") (Some "y'all are great"))
     = Some (Sample.profile "Washington DC" "" !! "location").
Proof.
  destruct (get_data_projects Sample.status_dc Sample.status_dc
              (Sample.profile "Washington DC" "")
              (Sample.profile "Washington DC" "") eq_refl eq_refl)
    as (H1 & H2 & _).
  split; [reflexivity|]. split; [exact H1|].
  apply H2. right. right. right. now left.
Defined.

(** X3: when every status has a user, the extraction of a page of
    results returns one record per status, in the order of the
    statuses. *)
Theorem map_get_data_one_per_status (results : list status) :
  Forall (fun st => is_Some (user st)) results ->
  exists temp_list,
    map_get_data results = Ok temp_list
    /\ length temp_list = length results
    /\ Forall2 (fun st t => get_data st = Ok t) results temp_list.
Proof.
  induction results as [|st results IH]; intros H.
  - exists []. split; [reflexivity|]. split; [reflexivity | constructor].
  - apply Forall_cons_iff in H as [[u Hu] Hrest].
    destruct (IH Hrest) as (ts & Hts & Hlen & Hall).
    exists (extracted u (full_text st) :: ts).
    assert (Hst : get_data st = Ok (extracted u (full_text st)))
      by (rewrite get_data_extracted, Hu; reflexivity).
    split; [|split].
    + cbn [map_get_data]. rewrite Hst. cbn [mbind result_bind].
      rewrite Hts. reflexivity.
    + cbn [length]. now rewrite Hlen.
    + constructor; [exact Hst | exact Hall].
Qed.

Lemma map_get_data_one_per_status_witness :
  Forall (fun st => is_Some (user st))
         [ Sample.status_dc; Sample.status_seattle ]
  /\ exists temp_list,
       map_get_data [ Sample.status_dc; Sample.status_seattle ]
       = Ok temp_list
       /\ length temp_list = 2.
Proof.
  assert (H : Forall (fun st => is_Some (user st))
                     [ Sample.status_dc; Sample.status_seattle ])
    by (repeat (constructor; [eexists; reflexivity|]); constructor).
  split; [exact H|].
  destruct (map_get_data_one_per_status _ H) as (ts & Hts & Hlen & _).
  exists ts. split; [exact Hts | exact Hlen].
Defined.

Lemma map_get_data_no_user (results : list status) :
  Exists (fun st => user st = None) results ->
  map_get_data results = Raise AttributeError.
Proof.
  induction results as [|st results IH]; intros H.
  - now apply Exists_nil in H.
  - cbn [map_get_data]. rewrite get_data_extracted.
    destruct (user st) as [u|] eqn:Hu; [|reflexivity].
    cbn [mbind result_bind]. rewrite IH; [reflexivity|].
    apply Exists_cons in H as [H | H]; [congruence | exact H].
Qed.

(** ** The Collector, query by query *)

Section ScraperExtras.

Context {float : Type}.
Variable w : world float.
Variable parser : Cli.Namespace.

Lemma scraper_loop_app (api : API) (a b : list string) :
  forall S,
    scraper_loop w parser api (a ++ b) S
    = scraper_loop w parser api a S ≫= scraper_loop w parser api b.
Proof.
  induction a as [|q a IH]; intros S; [reflexivity|].
  cbn [app scraper_loop].
  destruct (items w api q (Cli.n parser)) as [results|e]; [|reflexivity].
  cbn [mbind result_bind].
  destruct (map_get_data results) as [temp_list|e]; [|reflexivity].
  cbn [mbind result_bind]. apply IH.
Qed.

(** X4: a status without a [user] object stops the collection.  When
    the queries before [search] have been answered and the results of
    [search] hold such a status, [scraper]'s loop raises
    [AttributeError], whatever the other statuses are and whatever
    queries come after. *)
Theorem missing_user_stops_collection
    (api : API) (before after : list string) (search : string)
    (results : list status) (S0 S1 : gset tweet) :
  scraper_loop w parser api before S0 = Ok S1 ->
  items w api search (Cli.n parser) = Ok results ->
  Exists (fun st => user st = None) results ->
  scraper_loop w parser api (before ++ search :: after) S0
  = Raise AttributeError.
Proof.
  intros Hb Hi Hex. rewrite scraper_loop_app, Hb.
  cbn [mbind result_bind scraper_loop]. rewrite Hi.
  cbn [mbind result_bind]. now rewrite (map_get_data_no_user results Hex).
Qed.

(** X5: an exception of the search is not caught.  When the queries
    before [search] have been answered and the search of [search]
    raises, [scraper]'s loop raises the same exception, and the queries
    after it have no part in the outcome. *)
Theorem search_failure_stops_collection
    (api : API) (before after : list string) (search : string)
    (e : exn) (S0 S1 : gset tweet) :
  scraper_loop w parser api before S0 = Ok S1 ->
  items w api search (Cli.n parser) = Raise e ->
  scraper_loop w parser api (before ++ search :: after) S0 = Raise e.
Proof.
  intros Hb Hi. rewrite scraper_loop_app, Hb.
  cbn [mbind result_bind scraper_loop]. now rewrite Hi.
Qed.

(** X6: the set collected does not depend on the order of the
    queries.  If the loop returns a set for a list of queries, it
    returns the same set for every rearrangement of that list. *)
Theorem collection_ignores_query_order
    (api : API) (queries queries' : list string) (S : gset tweet) :
  Permutation queries queries' ->
  scraper_loop w parser api queries ∅ = Ok S ->
  scraper_loop w parser api queries' ∅ = Ok S.
Proof.
  intros Hp H.
  assert (Hret : exists S', scraper_loop w parser api queries' ∅ = Ok S').
  { apply scraper_loop_returns.
    assert (Hall : Forall (answered w parser api) queries)
      by (apply (scraper_loop_returns w parser api queries ∅); eauto).
    rewrite Forall_forall in *. intros q Hq. apply Hall.
    apply list_elem_of_In. apply list_elem_of_In in Hq.
    apply Permutation_sym in Hp. exact (Permutation_in q Hp Hq). }
  destruct Hret as (S' & H'). rewrite H'.
  apply (f_equal (@Ok (gset tweet))), set_eq. intros t.
  rewrite (scraper_loop_elem w parser api queries' ∅ S' H' t).
  rewrite (scraper_loop_elem w parser api queries ∅ S H t).
  split; (intros [H0 | (q & r & l & Hq & Hrest)]; [now left | right]);
    exists q, r, l; (split; [|exact Hrest]).
  - apply Permutation_sym in Hp. exact (Permutation_in q Hp Hq).
  - exact (Permutation_in q Hp Hq).
Qed.

End ScraperExtras.

Lemma missing_user_stops_collection_witness :
  scraper_loop Sample.broken_status Sample.args Sample.api
    [ "southern accent -filter:retweets" ] ∅ = Ok ∅
  /\ Exists (fun st => user st = None) [ Sample.status_no_user ]
  /\ scraper_loop Sample.broken_status Sample.args Sample.api
       ([ "southern accent -filter:retweets" ]
        ++ "new york accent -filter:retweets"
           :: [ "californian accent -filter:retweets" ]) ∅
     = Raise AttributeError.
Proof.
  assert (Hex : Exists (fun st => user st = None) [ Sample.status_no_user ])
    by (left; reflexivity).
  split; [reflexivity|]. split; [exact Hex|].
  exact (missing_user_stops_collection Sample.broken_status Sample.args
           Sample.api [ "southern accent -filter:retweets" ]
           [ "californian accent -filter:retweets" ]
           "new york accent -filter:retweets" [ Sample.status_no_user ]
           ∅ ∅ eq_refl eq_refl Hex).
Defined.

Lemma search_failure_stops_collection_witness :
  scraper_loop Sample.broken_search Sample.args Sample.api
    [ "southern accent -filter:retweets" ] ∅ = Ok ∅
  /\ scraper_loop Sample.broken_search Sample.args Sample.api
       ([ "southern accent -filter:retweets" ]
        ++ "new york accent -filter:retweets"
           :: [ "californian accent -filter:retweets" ]) ∅
     = Raise TweepError.
Proof.
  split; [reflexivity|].
  exact (search_failure_stops_collection Sample.broken_search Sample.args
           Sample.api [ "southern accent -filter:retweets" ]
           [ "californian accent -filter:retweets" ]
           "new york accent -filter:retweets" TweepError ∅ ∅
           eq_refl eq_refl).
Defined.

Lemma collection_ignores_query_order_witness :
  Permutation my_queries
    [ "new york accent -filter:retweets";
      "southern accent -filter:retweets";
      "californian accent -filter:retweets" ]
  /\ scraper_loop Sample.services Sample.args Sample.api
       [ "new york accent -filter:retweets";
         "southern accent -filter:retweets";
         "californian accent -filter:retweets" ] ∅
     = Ok Sample.collected.
Proof.
  assert (Hp : Permutation my_queries
                 [ "new york accent -filter:retweets";
                   "southern accent -filter:retweets";
                   "californian accent -filter:retweets" ])
    by apply perm_swap.
  split; [exact Hp|].
  exact (collection_ignores_query_order Sample.services Sample.args
           Sample.api _ _ Sample.collected Hp sample_scraper_loop).
Defined.

(** ** The Filter+Scorer, row by row *)

Section FilterExtras.

Context {float : Type}.
Variable w : world float.

(** What [score] does on a well-formed record: it scores the value
    under "text" and puts the two scores behind the six entries. *)
Lemma score_text (t : tweet) :
  well_formed t ->
  score w t
  = sc ← sentiment w (field_at t 5);
    Ok (as_cells t ++ [ ("polarity", Score (fst sc));
                        ("subjectivity", Score (snd sc)) ]).
Proof.
  intros Hwf.
  destruct t as [|[k0 v0] [|[k1 v1] [|[k2 v2] [|[k3 v3] [|[k4 v4]
                [|[k5 v5] [|]]]]]]]; try discriminate Hwf.
  injection Hwf as -> -> -> -> -> ->.
  unfold score, sentiment_saver.
  change (getitem (Dict.of_items _) "text") with (Ok (A := value) v5).
  change (field_at _ 5) with v5.
  cbn [mbind result_bind].
  destruct (sentiment w v5) as [[p s]|e]; reflexivity.
Qed.

Lemma filter_loop_scored (tweet_tup : list tweet) :
  forall saved out,
    filter_loop w tweet_tup saved = Ok out ->
    exists rows,
      out = saved ++ rows
      /\ Forall2 (fun t row => score w t = Ok row)
                 (List.filter kept tweet_tup) rows.
Proof.
  induction tweet_tup as [|t rest IH]; intros saved out H.
  - injection H as <-. exists []. split; [now rewrite app_nil_r | constructor].
  - cbn [filter_loop] in H. apply bind_ok in H as (keep & Ec & H).
    apply condition_ok in Ec. cbn [List.filter]. fold (kept t) in Ec.
    rewrite <- Ec. destruct keep.
    + apply bind_ok in H as (row & Es & H).
      apply IH in H as (rows & -> & Hrows).
      exists (row :: rows). rewrite <- app_assoc.
      split; [reflexivity | now constructor].
    + apply IH in H as (rows & -> & Hrows). eauto.
Qed.

(** X7: [filter] keeps the order of its input.  On well-formed
    records, when it returns, its rows are, one for one and in input
    order, the records that satisfy the condition, each followed by the
    polarity and the subjectivity the scorer gives for its text; no row
    is added, none is repeated. *)
Theorem filter_rows_in_input_order
    (tweet_tup : list tweet) (out : list (Dict.t (cell float))) :
  Forall well_formed tweet_tup ->
  filter w tweet_tup = Ok out ->
  map record_of out = List.filter kept tweet_tup
  /\ Forall2 (fun t row =>
                exists p s,
                  sentiment w (field_at t 5) = Ok (p, s)
                  /\ row = as_cells t ++ [ ("polarity", Score p);
                                           ("subjectivity", Score s) ])
             (List.filter kept tweet_tup) out
  /\ length out <= length tweet_tup.
Proof.
  intros Hwf H.
  assert (Hrec : map record_of out = List.filter kept tweet_tup).
  { unfold filter in H.
    apply (filter_loop_ok w) in H as (rows & -> & Hrows); [|exact Hwf].
    exact Hrows. }
  split; [exact Hrec|]. split.
  - unfold filter in H. apply filter_loop_scored in H as (rows & -> & Hrows).
    cbn [app].
    assert (Hwf' : Forall well_formed (List.filter kept tweet_tup)).
    { rewrite Forall_forall in *. intros t Ht. apply Hwf.
      apply list_elem_of_In. apply list_elem_of_In in Ht.
      now apply filter_In in Ht. }
    clear Hrec. induction Hrows as [|t row ts rows Hs _ IH]; [constructor|].
    apply Forall_cons_iff in Hwf' as [Ht Hts].
    constructor; [|exact (IH Hts)].
    rewrite (score_text t Ht) in Hs.
    apply bind_ok in Hs as ([p s] & Hsent & Hrow).
    exists p, s. split; [exact Hsent|]. now injection Hrow as <-.
  - rewrite <- (length_map record_of out), Hrec. apply filter_length_le.
Qed.

(** X8: the scorer is consulted for the kept records only.  Two
    worlds whose scorers agree on the texts of the records that satisfy
    the condition give the same result, rows or exception, even if
    their scorers differ, or fail, on every other text. *)
Theorem scorer_sees_kept_records_only
    (w' : world float) (tweet_tup : list tweet) :
  (forall t text,
     In t tweet_tup ->
     condition t = Ok true ->
     Dict.get "text" (Dict.of_items t) = Some text ->
     sentiment w text = sentiment w' text) ->
  filter w tweet_tup = filter w' tweet_tup.
Proof.
  intros H. unfold filter. generalize (@nil (Dict.t (cell float))).
  induction tweet_tup as [|t rest IH]; intros saved; [reflexivity|].
  cbn [filter_loop].
  destruct (condition t) as [[|]|e] eqn:Hc; cbn [mbind result_bind].
  - assert (Hs : score w t = score w' t).
    { unfold score, getitem.
      destruct (Dict.get "text" (Dict.of_items t)) as [text|] eqn:Ht;
        [|reflexivity].
      cbn [mbind result_bind]. unfold sentiment_saver.
      now rewrite (H t text (or_introl eq_refl) Hc Ht). }
    rewrite Hs. destruct (score w' t) as [row|e]; [|reflexivity].
    cbn [mbind result_bind]. apply IH.
    intros t0 text Hin. apply H. now right.
  - apply IH. intros t0 text Hin. apply H. now right.
  - reflexivity.
Qed.

(** X9: a failure of the scorer on a kept record is not caught.  If a
    well-formed record of the input satisfies the condition and the
    scorer raises on its text, [filter] raises and returns no rows at
    all. *)
Theorem scorer_failure_aborts_filter
    (t : tweet) (e : exn) (tweet_tup : list tweet) :
  In t tweet_tup ->
  well_formed t ->
  condition t = Ok true ->
  sentiment w (field_at t 5) = Raise e ->
  exists e', filter w tweet_tup = Raise e'.
Proof.
  intros Hin Hwf Hc Hs. apply in_split in Hin as (a & b & ->).
  rewrite filter_app.
  assert (Hb : filter w (t :: b) = Raise e).
  { unfold filter. cbn [filter_loop]. rewrite Hc. cbn [mbind result_bind].
    rewrite (score_text t Hwf), Hs. reflexivity. }
  rewrite Hb. destruct (filter w a) as [rows|e1]; [exists e | exists e1];
    reflexivity.
Qed.

(** X10: when the input holds no record twice, as the iteration of a
    set does, the output holds no record twice and no row twice. *)
Theorem filter_output_without_duplicates
    (tweet_tup : list tweet) (out : list (Dict.t (cell float))) :
  List.NoDup tweet_tup ->
  Forall well_formed tweet_tup ->
  filter w tweet_tup = Ok out ->
  List.NoDup (map record_of out) /\ List.NoDup out.
Proof.
  intros Hnd Hwf H. unfold filter in H.
  apply (filter_loop_ok w) in H as (rows & -> & Hrows); [|exact Hwf].
  cbn [app].
  assert (Hr : List.NoDup (map record_of rows))
    by (rewrite Hrows; now apply List.NoDup_filter).
  split; [exact Hr | exact (List.NoDup_map_inv _ _ Hr)].
Qed.

End FilterExtras.

Lemma filter_rows_in_input_order_witness :
  Forall well_formed [ Sample.seattle; Sample.dc; Sample.dc_no_description ]
  /\ filter Sample.services
       [ Sample.seattle; Sample.dc; Sample.dc_no_description ]
     = Ok [ Sample.scored Sample.dc; Sample.scored Sample.dc_no_description ]
  /\ map record_of
       [ Sample.scored Sample.dc; Sample.scored Sample.dc_no_description ]
     = List.filter kept
         [ Sample.seattle; Sample.dc; Sample.dc_no_description ].
Proof.
  assert (Hwf : Forall well_formed
                  [ Sample.seattle; Sample.dc; Sample.dc_no_description ])
    by (repeat constructor).
  split; [exact Hwf|]. split; [reflexivity|].
  destruct (filter_rows_in_input_order Sample.services
              [ Sample.seattle; Sample.dc; Sample.dc_no_description ]
              [ Sample.scored Sample.dc;
                Sample.scored Sample.dc_no_description ] Hwf eq_refl)
    as [H _].
  exact H.
Defined.

Lemma scorer_sees_kept_records_only_witness :
  sentiment Sample.services (Some "hello")
  <> sentiment Sample.picky (Some "hello")
  /\ filter Sample.services [ Sample.dc; Sample.seattle ]
     = filter Sample.picky [ Sample.dc; Sample.seattle ].
Proof.
  split; [discriminate|].
  apply (scorer_sees_kept_records_only Sample.services Sample.picky
           [ Sample.dc; Sample.seattle ]).
  intros t text [<- | [<- | []]] Hc Ht.
  - injection Ht as <-. reflexivity.
  - discriminate Hc.
Defined.

Lemma scorer_failure_aborts_filter_witness :
  In Sample.dc_no_text [ Sample.dc; Sample.dc_no_text ]
  /\ well_formed Sample.dc_no_text
  /\ condition Sample.dc_no_text = Ok true
  /\ sentiment Sample.services (field_at Sample.dc_no_text 5)
     = Raise TypeError
  /\ exists e, filter Sample.services [ Sample.dc; Sample.dc_no_text ]
               = Raise e.
Proof.
  assert (Hin : In Sample.dc_no_text [ Sample.dc; Sample.dc_no_text ])
    by (right; now left).
  split; [exact Hin|]. split; [reflexivity|]. split; [reflexivity|].
  split; [reflexivity|].
  exact (scorer_failure_aborts_filter Sample.services Sample.dc_no_text
           TypeError [ Sample.dc; Sample.dc_no_text ]
           Hin eq_refl eq_refl eq_refl).
Defined.

Lemma sample_records_differ : Sample.dc <> Sample.seattle.
Proof. discriminate. Qed.

Lemma filter_output_without_duplicates_witness :
  List.NoDup [ Sample.dc; Sample.seattle ]
  /\ Forall well_formed [ Sample.dc; Sample.seattle ]
  /\ List.NoDup (map record_of [ Sample.scored Sample.dc ])
  /\ List.NoDup [ Sample.scored Sample.dc ].
Proof.
  assert (Hnd : List.NoDup [ Sample.dc; Sample.seattle ]).
  { apply List.NoDup_cons.
    - intros [H | []]. symmetry in H. exact (sample_records_differ H).
    - apply List.NoDup_cons; [intros [] | apply List.NoDup_nil]. }
  assert (Hwf : Forall well_formed [ Sample.dc; Sample.seattle ])
    by (repeat constructor).
  split; [exact Hnd|]. split; [exact Hwf|].
  exact (filter_output_without_duplicates Sample.services
           [ Sample.dc; Sample.seattle ] [ Sample.scored Sample.dc ]
           Hnd Hwf eq_refl).
Defined.

(** ** The run as a whole *)

Section MainExtras.

Context {float : Type}.
Variable w : world float.
Variable parser : Cli.Namespace.

Lemma start_api_handled (st : state) :
  handled (get_authorization_url w) ->
  start_api w st
  = (said st (message_for (get_authorization_url w)), Ok the_api).
Proof.
  intros H. unfold handled in H.
  destruct (get_authorization_url w) as [url|e] eqn:Hu.
  - exact (start_api_accepted w st url Hu).
  - rewrite (H e eq_refl) in Hu. exact (start_api_refused w st Hu).
Qed.

(** What [main] does once [start_api] has returned the handle. *)
Lemma main_unfolded (st st1 : state) :
  start_api w st = (st1, Ok the_api) ->
  main w parser st
  = match scraper_loop w parser the_api my_queries ∅ with
    | Ok tweets =>
        match filter w (elements tweets) with
        | Ok filtered_tweets => write_to_csv w parser filtered_tweets st1
        | Raise e => (st1, Raise e)
        end
    | Raise e => (st1, Raise e)
    end.
Proof.
  intros Hstart. unfold main, scraper.
  unfold mbind at 1 2 3, io_bind. rewrite Hstart. unfold call.
  destruct (scraper_loop w parser the_api my_queries ∅) as [tweets|e];
    [|reflexivity].
  destruct (filter w (elements tweets)) as [rows|e]; reflexivity.
Qed.

(** X11: [start_api] catches [TweepError] and nothing else.  Any
    other exception of the authentication call leaves [start_api], and
    with it [main], at once: nothing is printed, no search is made and
    no file is written. *)
Theorem other_authentication_error_is_fatal (e : exn) (st : state) :
  get_authorization_url w = Raise e ->
  is_TweepError e = false ->
  start_api w st = (st, Raise e)
  /\ main w parser st = (st, Raise e).
Proof.
  intros Hu He.
  assert (Hstart : start_api w st = (st, Raise e)).
  { unfold start_api, try_except, mbind, io_bind, call.
    rewrite Hu, He. reflexivity. }
  split; [exact Hstart|].
  unfold main, scraper. unfold mbind at 1 2 3, io_bind.
  rewrite Hstart. reflexivity.
Qed.

(** X12: a run in which every stage succeeds prints two lines, the
    one of [start_api] and the confirmation that names the file, and
    leaves in that file the header followed by the rows of the kept
    records; it changes no other file. *)
Theorem successful_run
    (st : state) (S : gset tweet) (out : list (Dict.t (cell float))) :
  handled (get_authorization_url w) ->
  scraper_loop w parser the_api my_queries ∅ = Ok S ->
  filter w (elements S) = Ok out ->
  open_for_writing w (Cli.f parser) = Ok tt ->
  main w parser st
  = ({| stdout := stdout st
                  ++ [ message_for (get_authorization_url w) ]
                  ++ [ ("All done! Your tweets have been saved to "
                        ++ Cli.f parser)%string ];
        files := <[ Cli.f parser :=
                      string_of_list_ascii
                        (header_row ++ concat (map (data_row w) out)) ]>
                   (files st) |},
     Ok tt).
Proof.
  intros Hh HS Hout Hopen.
  rewrite (main_after_start_api w parser st _ S out
             (start_api_handled st Hh) HS Hout Hopen).
  unfold said. cbn [stdout files]. now rewrite <- app_assoc.
Qed.

(** X13: a failure of the Collector or of the Filter+Scorer ends the
    run before the file is opened.  [main] raises the same exception,
    has printed only the line of [start_api], and leaves every file as
    it was: the output file is neither created nor emptied. *)
Theorem failure_before_writing_leaves_files
    (st : state) (e : exn) :
  handled (get_authorization_url w) ->
  scraper_loop w parser the_api my_queries ∅ = Raise e
  \/ (exists S, scraper_loop w parser the_api my_queries ∅ = Ok S
                /\ filter w (elements S) = Raise e) ->
  main w parser st
  = (said st (message_for (get_authorization_url w)), Raise e)
  /\ files (fst (main w parser st)) = files st.
Proof.
  intros Hh H.
  assert (Hm : main w parser st
               = (said st (message_for (get_authorization_url w)), Raise e)).
  { rewrite (main_unfolded st _ (start_api_handled st Hh)).
    destruct H as [H | (S & HS & Hf)].
    - now rewrite H.
    - now rewrite HS, Hf. }
  split; [exact Hm | now rewrite Hm].
Qed.

(** When no record is kept, [filter] returns no row. *)
Lemma filter_none_kept (tweet_tup : list tweet) :
  Forall (fun t => is_Some (location t) /\ is_Some (description t)
                   /\ kept t = false) tweet_tup ->
  filter w tweet_tup = Ok [].
Proof.
  induction tweet_tup as [|t rest IH]; intros H; [reflexivity|].
  apply Forall_cons_iff in H as [(Hl & Hd & Hk) Hrest].
  pose proof (condition_returns t Hl Hd) as Hc.
  fold (kept t) in Hc. rewrite Hk in Hc.
  rewrite (filter_cons_skip w t rest Hc). exact (IH Hrest).
Qed.

(** X14: when the location and the description of every collected
    record are strings and no filter term matches any of them, the run
    still succeeds, and the file it leaves is the header line alone. *)
Theorem run_without_match_writes_header_only
    (st : state) (S : gset tweet) :
  handled (get_authorization_url w) ->
  scraper_loop w parser the_api my_queries ∅ = Ok S ->
  (forall t, t ∈ S ->
     is_Some (location t) /\ is_Some (description t) /\ kept t = false) ->
  open_for_writing w (Cli.f parser) = Ok tt ->
  snd (main w parser st) = Ok tt
  /\ files (fst (main w parser st))
     = <[ Cli.f parser := string_of_list_ascii header_row ]> (files st).
Proof.
  intros Hh HS Hnone Hopen.
  assert (Hout : filter w (elements S) = Ok []).
  { apply filter_none_kept, Forall_forall. intros t Ht.
    apply Hnone. now apply elem_of_elements. }
  rewrite (main_after_start_api w parser st _ S []
             (start_api_handled st Hh) HS Hout Hopen).
  cbn [fst snd files map concat]. rewrite app_nil_r.
  split; reflexivity.
Qed.

End MainExtras.

Lemma other_authentication_error_is_fatal_witness :
  get_authorization_url Sample.interrupted = Raise (SystemExit 1)
  /\ is_TweepError (SystemExit 1) = false
  /\ main Sample.interrupted Sample.args Sample.fresh
     = (Sample.fresh, Raise (SystemExit 1)).
Proof.
  split; [reflexivity|]. split; [reflexivity|].
  destruct (other_authentication_error_is_fatal Sample.interrupted
              Sample.args (SystemExit 1) Sample.fresh eq_refl eq_refl)
    as [_ H].
  exact H.
Defined.

Lemma sample_refused_handled (e : exn) :
  Raise (A := string) TweepError = Raise e -> e = TweepError.
Proof. intros H. now injection H as <-. Qed.

Lemma sample_dc_query :
  map_get_data [ Sample.status_dc ] = Ok [ Sample.dc ].
Proof. vm_compute. reflexivity. Qed.

Lemma sample_only_dc_loop :
  scraper_loop Sample.only_dc Sample.args the_api my_queries ∅
  = Ok {[ Sample.dc ]}.
Proof.
  unfold my_queries. cbn [scraper_loop].
  change (items Sample.only_dc the_api
            "southern accent -filter:retweets" (Cli.n Sample.args))
    with (Ok (A := list status) [ Sample.status_dc ]).
  cbn [mbind result_bind]. rewrite sample_dc_query.
  cbn [mbind result_bind].
  change (items Sample.only_dc the_api
            "new york accent -filter:retweets" (Cli.n Sample.args))
    with (Ok (A := list status) []).
  cbn [mbind result_bind map_get_data].
  change (items Sample.only_dc the_api
            "californian accent -filter:retweets" (Cli.n Sample.args))
    with (Ok (A := list status) []).
  cbn [mbind result_bind map_get_data].
  unfold add_all. cbn [fold_left]. rewrite (left_id_L ∅ (∪)).
  exact eq_refl.
Qed.

Lemma sample_only_dc_filter :
  filter Sample.only_dc (elements ({[ Sample.dc ]} : gset tweet))
  = Ok [ Sample.scored Sample.dc ].
Proof. rewrite elements_singleton. reflexivity. Qed.

Lemma successful_run_witness :
  handled (get_authorization_url Sample.only_dc)
  /\ scraper_loop Sample.only_dc Sample.args the_api my_queries ∅
     = Ok {[ Sample.dc ]}
  /\ filter Sample.only_dc (elements ({[ Sample.dc ]} : gset tweet))
     = Ok [ Sample.scored Sample.dc ]
  /\ open_for_writing Sample.only_dc (Cli.f Sample.args) = Ok tt
  /\ snd (main Sample.only_dc Sample.args Sample.fresh) = Ok tt
  /\ stdout (fst (main Sample.only_dc Sample.args Sample.fresh))
     = [ "You're in! API connected.";
         "All done! Your tweets have been saved to your_tweets.csv" ]
  /\ files (fst (main Sample.only_dc Sample.args Sample.fresh))
       !! "your_tweets.csv"
     = Some (string_of_list_ascii
               (header_row
                ++ chars "Wed Jan 02 12:00:00 +0000 2019,Ann,ann,Washington DC,,y'all are great,0.5,0.5"
                ++ [ Csv.LF ])).
Proof.
  assert (Hh : handled (get_authorization_url Sample.only_dc))
    by (intros e H; discriminate H).
  split; [exact Hh|]. split; [exact sample_only_dc_loop|].
  split; [exact sample_only_dc_filter|]. split; [reflexivity|].
  rewrite (successful_run Sample.only_dc Sample.args Sample.fresh
             {[ Sample.dc ]} [ Sample.scored Sample.dc ]
             Hh sample_only_dc_loop sample_only_dc_filter eq_refl).
  cbn [fst snd stdout files]. split; [reflexivity|]. split; [reflexivity|].
  rewrite lookup_insert_eq. reflexivity.
Defined.

Lemma failure_before_writing_leaves_files_witness :
  handled (get_authorization_url Sample.broken_search)
  /\ scraper_loop Sample.broken_search Sample.args the_api my_queries ∅
     = Raise TweepError
  /\ files (fst (main Sample.broken_search Sample.args Sample.fresh))
     = files Sample.fresh.
Proof.
  assert (Hh : handled (get_authorization_url Sample.broken_search))
    by exact sample_refused_handled.
  assert (HS : scraper_loop Sample.broken_search Sample.args the_api
                 my_queries ∅ = Raise TweepError) by reflexivity.
  split; [exact Hh|]. split; [exact HS|].
  destruct (failure_before_writing_leaves_files Sample.broken_search
              Sample.args Sample.fresh TweepError Hh (or_introl HS))
    as [_ H].
  exact H.
Defined.

Lemma sample_only_seattle_loop :
  scraper_loop Sample.only_seattle Sample.args the_api my_queries ∅
  = Ok {[ Sample.seattle ]}.
Proof.
  unfold my_queries. cbn [scraper_loop].
  change (items Sample.only_seattle the_api
            "southern accent -filter:retweets" (Cli.n Sample.args))
    with (Ok (A := list status) [ Sample.status_seattle ]).
  cbn [mbind result_bind]. rewrite sample_second_query.
  cbn [mbind result_bind].
  change (items Sample.only_seattle the_api
            "new york accent -filter:retweets" (Cli.n Sample.args))
    with (Ok (A := list status) []).
  cbn [mbind result_bind map_get_data].
  change (items Sample.only_seattle the_api
            "californian accent -filter:retweets" (Cli.n Sample.args))
    with (Ok (A := list status) []).
  cbn [mbind result_bind map_get_data].
  unfold add_all. cbn [fold_left]. rewrite (left_id_L ∅ (∪)).
  exact eq_refl.
Qed.

Lemma sample_seattle_not_kept (t : tweet) :
  t ∈ ({[ Sample.seattle ]} : gset tweet) ->
  is_Some (location t) /\ is_Some (description t) /\ kept t = false.
Proof.
  intros Ht. apply elem_of_singleton in Ht. subst t.
  split; [eexists; reflexivity|]. split; [eexists; reflexivity|].
  reflexivity.
Qed.

Lemma run_without_match_writes_header_only_witness :
  handled (get_authorization_url Sample.only_seattle)
  /\ scraper_loop Sample.only_seattle Sample.args the_api my_queries ∅
     = Ok {[ Sample.seattle ]}
  /\ open_for_writing Sample.only_seattle (Cli.f Sample.args) = Ok tt
  /\ snd (main Sample.only_seattle Sample.args Sample.fresh) = Ok tt
  /\ files (fst (main Sample.only_seattle Sample.args Sample.fresh))
     = <[ Cli.f Sample.args := string_of_list_ascii header_row ]>
         (files Sample.fresh).
Proof.
  assert (Hh : handled (get_authorization_url Sample.only_seattle))
    by (intros e H; discriminate H).
  split; [exact Hh|]. split; [exact sample_only_seattle_loop|].
  split; [reflexivity|].
  exact (run_without_match_writes_header_only Sample.only_seattle
           Sample.args Sample.fresh {[ Sample.seattle ]} Hh
           sample_only_seattle_loop sample_seattle_not_kept eq_refl).
Defined.

(** ** Authentication and the rest of the run *)

Section AuthenticationExtras.

Context {float : Type}.
Variable w : world float.
Variable parser : Cli.Namespace.

(** [write_to_csv] reads nothing of the state: from two states with the
    same files it gives the same outcome and the same files, and adds
    the same lines to what was printed. *)
Lemma write_to_csv_frame
    (rows : list (Dict.t (cell float))) (st st' : state) :
  files st = files st' ->
  snd (write_to_csv w parser rows st) = snd (write_to_csv w parser rows st')
  /\ files (fst (write_to_csv w parser rows st))
     = files (fst (write_to_csv w parser rows st'))
  /\ exists lines,
       stdout (fst (write_to_csv w parser rows st)) = stdout st ++ lines
       /\ stdout (fst (write_to_csv w parser rows st')) = stdout st' ++ lines.
Proof.
  intros Hf. unfold write_to_csv, mbind, io_bind, call.
  destruct (open_for_writing w (Cli.f parser)) as [[]|e].
  - destruct (writerows w rows (writeheader [])) as [text [[]|e]];
      cbn [fst snd print close stdout files]; rewrite Hf;
      (split; [reflexivity|]); (split; [reflexivity|]).
    + eexists. split; reflexivity.
    + exists []. now rewrite !app_nil_r.
  - cbn [fst snd]. split; [reflexivity|]. split; [exact Hf|].
    exists []. now rewrite !app_nil_r.
Qed.

(** X15: the outcome of the authentication call changes the line
    [start_api] prints and nothing else.  Whether the call returns or
    raises [TweepError], [main] ends the same way, leaves the same
    files and prints the same lines after the first. *)
Theorem authentication_outcome_changes_one_line (url : string) (st : state) :
  snd (main (with_authentication w (Ok url)) parser st)
  = snd (main (with_authentication w (Raise TweepError)) parser st)
  /\ files (fst (main (with_authentication w (Ok url)) parser st))
     = files (fst (main (with_authentication w (Raise TweepError)) parser st))
  /\ exists lines,
       stdout (fst (main (with_authentication w (Ok url)) parser st))
       = stdout st ++ [ "You're in! API connected." ] ++ lines
       /\ stdout (fst (main (with_authentication w (Raise TweepError))
                         parser st))
          = stdout st ++ [ "You're not in! API did not connect." ] ++ lines.
Proof.
  rewrite (main_unfolded (with_authentication w (Ok url)) parser st _
             (start_api_accepted (with_authentication w (Ok url)) st url
                eq_refl)).
  rewrite (main_unfolded (with_authentication w (Raise TweepError)) parser st _
             (start_api_refused (with_authentication w (Raise TweepError)) st
                eq_refl)).
  change (scraper_loop (with_authentication w (Ok url)) parser the_api
            my_queries ∅)
    with (scraper_loop w parser the_api my_queries ∅).
  change (scraper_loop (with_authentication w (Raise TweepError)) parser
            the_api my_queries ∅)
    with (scraper_loop w parser the_api my_queries ∅).
  destruct (scraper_loop w parser the_api my_queries ∅) as [tweets|e].
  - change (filter (with_authentication w (Ok url)) (elements tweets))
      with (filter w (elements tweets)).
    change (filter (with_authentication w (Raise TweepError))
              (elements tweets))
      with (filter w (elements tweets)).
    destruct (filter w (elements tweets)) as [rows|e].
    + change (write_to_csv (with_authentication w (Ok url)) parser rows)
        with (write_to_csv w parser rows).
      change (write_to_csv (with_authentication w (Raise TweepError))
                parser rows)
        with (write_to_csv w parser rows).
      destruct (write_to_csv_frame rows
                  (said st "You're in! API connected.")
                  (said st "You're not in! API did not connect.") eq_refl)
        as (Hr & Hfiles & lines & H1 & H2).
      split; [exact Hr|]. split; [exact Hfiles|].
      exists lines. rewrite H1, H2. unfold said. cbn [stdout].
      now rewrite <- !app_assoc.
    + split; [reflexivity|]. split; [reflexivity|].
      exists []. unfold said. cbn [fst stdout]. split; reflexivity.
  - split; [reflexivity|]. split; [reflexivity|].
    exists []. unfold said. cbn [fst stdout]. split; reflexivity.
Qed.

End AuthenticationExtras.

(** ** Repeated options *)





(** ** Lines of the file and the records behind them *)

(** Some field size limit is enough for the values of two records. *)
Lemma some_limit_is_enough (t1 t2 : tweet) :
  exists limit : N,
    forall v, In v (Dict.values t1) \/ In v (Dict.values t2) ->
      (N.of_nat (length (value_text v)) <= limit)%N.
Proof.
  set (l := map (fun v => length (value_text v))
                (Dict.values t1 ++ Dict.values t2)).
  exists (N.of_nat (list_max l)). intros v Hv.
  pose proof (proj1 (list_max_le l (list_max l)) (le_n _)) as HF.
  rewrite List.Forall_forall in HF.
  specialize (HF (length (value_text v))).
  assert (Hin : In (length (value_text v)) l).
  { apply in_map_iff. exists v. split; [reflexivity|]. now apply in_or_app. }
  apply HF in Hin. lia.
Qed.

Lemma no_carriage_return_readable (limit : N) (t : tweet) :
  no_carriage_return t ->
  (forall v, In v (Dict.values t) ->
     (N.of_nat (length (value_text v)) <= limit)%N) ->
  Forall (fun v => readable limit (value_text v) = true) (Dict.values t).
Proof.
  unfold no_carriage_return. rewrite !List.Forall_forall.
  intros Hcr Hlen v Hv. unfold readable.
  rewrite (Hcr v Hv), orb_true_r. cbn [andb].
  apply N.leb_le. now apply Hlen.
Qed.

Lemma value_text_read_back (v : value) :
  value_text (read_back v) = value_text v.
Proof. destruct v; reflexivity. Qed.

(** X17: two records without carriage returns are written as the same
    line exactly when their values agree once every [None] is read as
    the empty string.  So records that differ in a string value never
    share a line, and the only records that do differ by [None] against
    the empty string. *)
Theorem same_line_same_values_up_to_none (t1 t2 : tweet) :
  no_carriage_return t1 ->
  no_carriage_return t2 ->
  write_record t1 = write_record t2
  <-> map read_back (Dict.values t1) = map read_back (Dict.values t2).
Proof.
  intros H1 H2. split.
  - intros H. destruct (some_limit_is_enough t1 t2) as (limit & Hlen).
    apply (f_equal (read_values_with limit)) in H.
    rewrite (read_values_with_write_record limit t1),
      (read_values_with_write_record limit t2) in H.
    + now injection H.
    + apply no_carriage_return_readable; [exact H2|]. intros v Hv.
      apply Hlen. now right.
    + apply no_carriage_return_readable; [exact H1|]. intros v Hv.
      apply Hlen. now left.
  - intros H. unfold write_record.
    rewrite <- (map_ext _ _ value_text_read_back (Dict.values t1)).
    rewrite <- (map_ext _ _ value_text_read_back (Dict.values t2)).
    rewrite <- !(map_map read_back value_text). now rewrite H.
Qed.

Lemma same_line_same_values_up_to_none_witness :
  no_carriage_return Sample.dc
  /\ no_carriage_return Sample.dc_no_description
  /\ Sample.dc <> Sample.dc_no_description
  /\ (write_record Sample.dc = write_record Sample.dc_no_description
      <-> map read_back (Dict.values Sample.dc)
          = map read_back (Dict.values Sample.dc_no_description)).
Proof.
  assert (H1 : no_carriage_return Sample.dc) by (repeat constructor).
  assert (H2 : no_carriage_return Sample.dc_no_description)
    by (repeat constructor).
  split; [exact H1|]. split; [exact H2|]. split; [discriminate|].
  exact (same_line_same_values_up_to_none Sample.dc
           Sample.dc_no_description H1 H2).
Defined.

(** ** More on term matching *)

(** X18: the case of the letters of a term is as irrelevant as the
    case of the field.  Two terms made of letters, digits and spaces
    that spell the same word up to case match exactly the same
    fields. *)
Theorem term_case_is_irrelevant (f f' s : string) :
  Re.literal f = true ->
  Re.literal f' = true ->
  map Char.lower (chars f) = map Char.lower (chars f') ->
  Re.search_word f s = Re.search_word f' s.
Proof.
  intros _ _ H. unfold Re.search_word, Re.compile_word.
  fold (chars f). fold (chars f').
  rewrite <- (map_map Char.lower Re.LITERAL_IGNORE (chars f)).
  rewrite <- (map_map Char.lower Re.LITERAL_IGNORE (chars f')).
  now rewrite H.
Qed.

Lemma term_case_is_irrelevant_witness :
  Re.literal "DMV" = true
  /\ Re.literal "dmv" = true
  /\ Re.search_word "DMV" "born in the dmv" = Re.search_word "dmv" "born in the dmv".
Proof.
  split; [reflexivity|]. split; [reflexivity|].
  exact (term_case_is_irrelevant "DMV" "dmv" "born in the dmv"
           eq_refl eq_refl eq_refl).
Defined.

Lemma whole_word_needs_word_char (f s : list ascii) :
  Re.wordy f = true ->
  forallb (fun c => negb (Char.is_word c)) s = true ->
  ~ Re.whole_word_in f s.
Proof.
  intros Hw Hs (pre & mid & post & -> & Hm & _ & _).
  unfold Re.wordy in Hw. apply andb_true_iff in Hw as [Hh _].
  rewrite <- (ReFacts.word_here_lower mid f Hm) in Hh.
  destruct mid as [|c mid]; [discriminate|]. cbn [Re.word_here] in Hh.
  rewrite forallb_app in Hs. apply andb_true_iff in Hs as [_ Hs].
  cbn [app forallb] in Hs. apply andb_true_iff in Hs as [Hc _].
  rewrite Hh in Hc. discriminate.
Qed.

(** X19: a field without a word character, the empty string among
    them, matches no filter term; a record whose location and
    description are such fields is dropped by [filter] without the
    scorer being asked. *)
Theorem field_without_word_char_never_matches
    (t : tweet) (k k' loc desc : string) :
  t !! 3 = Some (k, Some loc) ->
  t !! 4 = Some (k', Some desc) ->
  forallb (fun c => negb (Char.is_word c)) (chars loc) = true ->
  forallb (fun c => negb (Char.is_word c)) (chars desc) = true ->
  term_matchesb (Some loc) = false
  /\ term_matchesb (Some desc) = false
  /\ condition t = Ok false.
Proof.
  intros H3 H4 Hl Hd.
  assert (Hno : forall s,
             forallb (fun c => negb (Char.is_word c)) (chars s) = true ->
             term_matchesb (Some s) = false).
  { intros s Hs. destruct (term_matchesb (Some s)) eqn:E; [|reflexivity].
    apply term_matchesb_spec in E as (f & s' & Hf & Es & Hm).
    injection Es as <-.
    apply (ReFacts.search_whole_word (chars f) (chars s)
             (filter_terms_wordy f Hf)) in Hm.
    destruct (whole_word_needs_word_char (chars f) (chars s)
                (filter_terms_wordy f Hf) Hs Hm). }
  pose proof (Hno loc Hl) as Hloc. pose proof (Hno desc Hd) as Hdesc.
  split; [exact Hloc|]. split; [exact Hdesc|].
  unfold condition.
  rewrite (any_search_string filter_terms t 3 loc) by eauto.
  unfold term_matchesb in Hloc. rewrite Hloc. cbn [mbind result_bind].
  rewrite (any_search_string filter_terms t 4 desc) by eauto.
  unfold term_matchesb in Hdesc. now rewrite Hdesc.
Qed.

Lemma field_without_word_char_never_matches_witness :
  condition (Sample.record (Some "") (Some "~ * ~") "hello") = Ok false.
Proof.
  destruct (field_without_word_char_never_matches
              (Sample.record (Some "") (Some "~ * ~") "hello")
              "location" "description" "" "~ * ~"
              eq_refl eq_refl eq_refl eq_refl) as (_ & _ & H).
  exact H.
Defined.
